(** * emojs: a shallow embedding of the emoji interpreter

    The interpreter of [src/unnamed/part_000] (the [ScopedMap] revision of
    [src/src/index.ts]) is translated function by function.

    - JavaScript strings are sequences of UTF-16 code units ([list N]).
    - [Intl.Segmenter] is a platform service: the code is embedded over an
      arbitrary [segment] function (a Section variable); a small concrete
      segmenter is supplied afterwards to run programs.
    - A [ScopedMap] object is only ever reachable from the activation that
      created it and from the scopes below it, so mutation in place is
      rendered by returning the updated chain.
    - [throw] becomes the [Throw] result, [while] and recursion take fuel. *)

From stdpp Require Import base option list strings gmap.
From Stdlib Require Import NArith Lia.
From Stdlib Require Ascii.

Set Default Proof Using "Type".
Open Scope N_scope.
Open Scope nat_scope.
Open Scope list_scope.

(** ** JavaScript strings *)

Module JsString.

Definition codeunit : Type := N.
Definition t : Type := list codeunit.

Definition eqb (a b : t) : bool := bool_decide (a = b).

(** Truthiness of a string: [!s] holds exactly for the empty string. *)
Definition isEmpty (s : t) : bool :=
  match s with [] => true | _ :: _ => false end.

(** [WhiteSpace] and [LineTerminator] of ECMA-262, the code points that
    [String.prototype.trim] strips. *)
Definition isWhiteSpace (c : codeunit) : bool :=
  ((9 <=? c) && (c <=? 13))%N
  || (c =? 32)%N || (c =? 160)%N || (c =? 5760)%N
  || ((8192 <=? c) && (c <=? 8202))%N
  || (c =? 8232)%N || (c =? 8233)%N || (c =? 8239)%N
  || (c =? 8287)%N || (c =? 12288)%N || (c =? 65279)%N.

Fixpoint trimStart (s : t) : t :=
  match s with
  | [] => []
  | c :: s' => if isWhiteSpace c then trimStart s' else s
  end.

Definition trimEnd (s : t) : t := rev (trimStart (rev s)).

Definition trim (s : t) : t := trimEnd (trimStart s).

(** [s.startsWith(p)] *)
Fixpoint startsWith (s p : t) : bool :=
  match p, s with
  | [], _ => true
  | _ :: _, [] => false
  | a :: p', b :: s' => (a =? b)%N && startsWith s' p'
  end.

(** [s.split(sep)] for a non-empty [sep]: [skip] counts the code units of
    a separator just matched that are still to be passed over, [acc] holds
    the current piece in reverse. *)
Fixpoint splitFrom (sep : t) (skip : nat) (acc : t) (s : t) : list t :=
  match s with
  | [] => [rev acc]
  | c :: s' =>
      match skip with
      | S k => splitFrom sep k acc s'
      | O =>
          if startsWith s sep
          then rev acc :: splitFrom sep (length sep - 1) [] s'
          else splitFrom sep 0 (c :: acc) s'
      end
  end.

Definition split (s sep : t) : list t := splitFrom sep 0 [] s.

(** [parts.join("")] *)
Definition join (parts : list t) : t := concat parts.

(** [arr.indexOf(x)], with [None] for [-1]. *)
Fixpoint indexOf (arr : list t) (x : t) : option nat :=
  match arr with
  | [] => None
  | y :: arr' => if eqb y x then Some 0 else S <$> indexOf arr' x
  end.

(** [arr.slice(from, to)] and [arr.slice(from)] for indices within
    [0 .. length]; [slice 1 0] is empty, as in JavaScript. *)
Definition slice {A} (from to : nat) (arr : list A) : list A :=
  take (to - from) (drop from arr).
Definition sliceFrom {A} (from : nat) (arr : list A) : list A :=
  drop from arr.

(** An ASCII literal as a JavaScript string. *)
Fixpoint ofAscii (s : String.string) : t :=
  match s with
  | String.EmptyString => []
  | String.String a s' => Ascii.N_of_ascii a :: ofAscii s'
  end.

End JsString.

Abbreviation jsstring := JsString.t.

Definition lit (s : string) : jsstring := JsString.ofAscii s.

(** ** The symbols of the language, as UTF-16 *)

Definition ASSIGN   : jsstring := [0xD83D; 0xDC49]%N.          (* U+1F449 *)
Definition PRINT    : jsstring := [0xD83D; 0xDDE3; 0xFE0F]%N.  (* U+1F5E3 U+FE0F *)
Definition COND     : jsstring := [0x2753]%N.                  (* U+2753 *)
Definition ARROW    : jsstring := [0x25B6; 0xFE0F]%N.          (* U+25B6 U+FE0F *)
Definition EQUALS   : jsstring := [0xD83D; 0xDFF0]%N.          (* U+1F7F0 *)
Definition CONCAT   : jsstring := [0x2795]%N.                  (* U+2795 *)
Definition FN_MARK  : jsstring := [0xD83D; 0xDD27]%N.          (* U+1F527 *)
Definition STMT_SEP : jsstring := [0xD83E; 0xDEF7]%N.          (* U+1FAF7 *)

(** ** Values *)

Record FnValue : Type := mkFn {
  argNames : list jsstring;
  body : list jsstring
}.

Inductive VarValue : Type :=
  | Str (s : jsstring)
  | Fn (f : FnValue).

(** ** ScopedMap

    [local] is declared as a [Map] but typed [ScopedMap]: the conditional
    passes the enclosing [ScopedMap] itself as [local] ([new
    ScopedMap(varMap)]), function calls use [createChild], which leaves
    [local] a fresh [Map] and sets [parent]. *)

#[warnings="-register-all"]
Inductive ScopedMap : Type :=
  | mkScopedMap (local : LocalStore) (parent : option ScopedMap)
with LocalStore : Type :=
  | LocalMap (m : gmap jsstring VarValue)
  | LocalScoped (s : ScopedMap).

Definition local (s : ScopedMap) : LocalStore :=
  match s with mkScopedMap l _ => l end.
Definition parent (s : ScopedMap) : option ScopedMap :=
  match s with mkScopedMap _ p => p end.

Module ScopedMap.

(** [new ScopedMap()] *)
Definition new : ScopedMap := mkScopedMap (LocalMap ∅) None.

(** [new ScopedMap(varMap)]: the argument becomes [local]. *)
Definition newOver (varMap : ScopedMap) : ScopedMap :=
  mkScopedMap (LocalScoped varMap) None.

Definition createChild (this : ScopedMap) : ScopedMap :=
  mkScopedMap (LocalMap ∅) (Some this).

(** [this.local.has], [this.local.get] and [this.local.set] dispatch on
    what [local] is; [parentHas] and [parentGet] are [this.parent?.has]
    and [this.parent?.get]. *)
Fixpoint has (this : ScopedMap) (key : jsstring) {struct this} : bool :=
  match this with
  | mkScopedMap l p =>
      localHas l key
      || match p with Some p' => has p' key | None => false end
  end
with localHas (l : LocalStore) (key : jsstring) {struct l} : bool :=
  match l with
  | LocalMap m => bool_decide (is_Some (m !! key))
  | LocalScoped s => has s key
  end.

Fixpoint get (this : ScopedMap) (key : jsstring) {struct this}
  : option VarValue :=
  match this with
  | mkScopedMap l p =>
      if localHas l key then localGet l key
      else match p with Some p' => get p' key | None => None end
  end
with localGet (l : LocalStore) (key : jsstring) {struct l}
  : option VarValue :=
  match l with
  | LocalMap m => m !! key
  | LocalScoped s => get s key
  end.

Definition noParent (p : option ScopedMap) : bool :=
  match p with Some _ => false | None => true end.

Fixpoint set (this : ScopedMap) (key : jsstring) (value : VarValue)
  {struct this} : ScopedMap :=
  match this with
  | mkScopedMap l p =>
      if localHas l key || noParent p
      then mkScopedMap (localSet l key value) p
      else match p with
           | Some p' => mkScopedMap l (Some (set p' key value))
           | None => this
           end
  end
with localSet (l : LocalStore) (key : jsstring) (value : VarValue)
  {struct l} : LocalStore :=
  match l with
  | LocalMap m => LocalMap (<[key := value]> m)
  | LocalScoped s => LocalScoped (set s key value)
  end.

Definition parentHas (p : option ScopedMap) (key : jsstring) : bool :=
  match p with Some p' => has p' key | None => false end.
Definition parentGet (p : option ScopedMap) (key : jsstring)
  : option VarValue :=
  match p with Some p' => get p' key | None => None end.
Definition parentSet (p : option ScopedMap) (key : jsstring)
  (value : VarValue) : option ScopedMap :=
  match p with Some p' => Some (set p' key value) | None => None end.

End ScopedMap.

(** ** Results of running code *)

Inductive Error : Type :=
  | FunctionDefinitionMissingArrow    (* "Function definition missing ARROW" *)
  | MissingArrowInConditional         (* "Missing ARROW in conditional" *)
  | MissingEqualsInConditional        (* "Missing EQUALS in conditional" *)
  | TakesNoArgs (fnName : option jsstring)
                                      (* "Function 'f' takes no args but got some" *)
  | UnknownSyntax (trimmed : jsstring).
                                      (* "Unknown syntax or function call: ..." *)

Inductive Result (A : Type) : Type :=
  | Ok (a : A)
  | Throw (e : Error)
  | OutOfFuel.
Arguments Ok {A} a.
Arguments Throw {A} e.
Arguments OutOfFuel {A}.

Definition bind {A B} (r : Result A) (k : A -> Result B) : Result B :=
  match r with
  | Ok a => k a
  | Throw e => Throw e
  | OutOfFuel => OutOfFuel
  end.

Notation "x <- r ;; k" := (bind r (fun x => k))
  (at level 100, r at next level, right associativity).

(** [arr.map(f)] for an [f] that may throw or diverge: left to right. *)
Fixpoint mapR {A B} (f : A -> Result B) (l : list A) : Result (list B) :=
  match l with
  | [] => Ok []
  | a :: l' => b <- f a ;; bs <- mapR f l' ;; Ok (b :: bs)
  end.

(** ** Syntax nodes and the token table *)

Inductive Token : Type := AssignToken | PrintToken | CondToken.

Definition token (t : Token) : jsstring :=
  match t with
  | AssignToken => ASSIGN
  | PrintToken => PRINT
  | CondToken => COND
  end.

Definition tokens : list Token := [AssignToken; PrintToken; CondToken].

Record ASTNode : Type := mkNode {
  type : jsstring;
  tok : Token;
  args : list jsstring
}.

(** The console: the lines printed so far, oldest first. *)
Definition State : Type := ScopedMap * list jsstring.

(** ** The interpreter, over an arbitrary grapheme segmenter *)

Section Interpreter.

(** [segment(str)]: the grapheme clusters of [str]. *)
Variable segment : jsstring -> list jsstring.

(** The [while] loop of [resolveValue]; [None] when the fuel runs out. *)
Fixpoint resolveLoop (fuel : nat) (varMap : ScopedMap)
  (val : option VarValue) {struct fuel} : option (option VarValue) :=
  match val with
  | Some (Str s) =>
      if ScopedMap.has varMap s
      then match fuel with
           | O => None
           | S fuel' => resolveLoop fuel' varMap (ScopedMap.get varMap s)
           end
      else Some val
  | _ => Some val
  end.

Definition resolveValue (fuel : nat) (name : jsstring) (varMap : ScopedMap)
  : Result jsstring :=
  match resolveLoop fuel varMap (ScopedMap.get varMap name) with
  | None => OutOfFuel
  | Some (Some (Str s)) => Ok s
  | Some _ => Ok name
  end.

Definition parseConcatPart (fuel : nat) (varMap : ScopedMap)
  (part : jsstring) : Result jsstring :=
  let chars := segment (JsString.trim part) in
  match chars with
  | [c] => resolveValue fuel c varMap
  | _ => Ok part
  end.

Definition parseConcat (fuel : nat) (raw : jsstring) (varMap : ScopedMap)
  : Result jsstring :=
  parts <- mapR (parseConcatPart fuel varMap) (JsString.split raw CONCAT) ;;
  Ok (JsString.join parts).

(** [createFn]: [Ok None] is the [false] of the source. *)
Definition createFn (raw : jsstring) : Result (option FnValue) :=
  let chars := segment raw in
  if JsString.startsWith raw FN_MARK || JsString.startsWith raw ARROW
  then match JsString.indexOf chars ARROW with
       | None => Throw FunctionDefinitionMissingArrow
       | Some arrowIndex =>
           let argNames := JsString.slice 1 arrowIndex chars in
           let body :=
             JsString.split
               (JsString.join (JsString.sliceFrom (arrowIndex + 1) chars))
               STMT_SEP in
           Ok (Some (mkFn argNames body))
       end
  else Ok None.

(** The [for] loop of [parseLine]: [todo] is [chars] from index [i] on. *)
Fixpoint parseLineFrom (chars : list jsstring) (i : nat)
  (todo : list jsstring) : option ASTNode :=
  match todo with
  | [] => None
  | c :: todo' =>
      match find (fun t => JsString.eqb (token t) c) tokens with
      | Some t =>
          let before := JsString.trim (JsString.join (JsString.slice 0 i chars)) in
          let after := JsString.sliceFrom (i + 1) chars in
          Some (mkNode (token t) t
                  (if JsString.eqb (token t) ASSIGN
                   then [before; JsString.trim (JsString.join after)]
                   else after))
      | None => parseLineFrom chars (S i) todo'
      end
  end.

Definition parseLine (line : jsstring) : option ASTNode :=
  let chars := segment line in
  parseLineFrom chars 0 chars.

(** The scope the caller goes on with once a block or a call has
    returned: the very object handed to the callee as [local] (block) or
    as [parent] (call), in the state the callee left it. *)
Definition afterBlock (varMap wrapper : ScopedMap) : ScopedMap :=
  match local wrapper with
  | LocalScoped varMap' => varMap'
  | LocalMap _ => varMap
  end.

Definition afterCall (varMap scoped : ScopedMap) : ScopedMap :=
  default varMap (parent scoped).

(** [token.evaluate(node, varMap)]; [interpret] is the recursive call. *)
Definition evaluate (interpret : list jsstring -> State -> Result State)
  (fuel : nat) (node : ASTNode) (st : State) : Result State :=
  let '(varMap, out) := st in
  match tok node with
  | AssignToken =>
      match args node with
      | name :: valueRaw :: _ =>
          if JsString.isEmpty name || JsString.isEmpty valueRaw then Ok st
          else
            fn <- createFn valueRaw ;;
            match fn with
            | Some f => Ok (ScopedMap.set varMap name (Fn f), out)
            | None =>
                resolved <- parseConcat fuel valueRaw varMap ;;
                Ok (ScopedMap.set varMap name (Str resolved), out)
            end
      | _ => Ok st
      end
  | PrintToken =>
      line <- parseConcat fuel (JsString.join (args node)) varMap ;;
      Ok (varMap, out ++ [line])
  | CondToken =>
      let chars := segment (JsString.join (args node)) in
      match JsString.indexOf chars ARROW with
      | None => Throw MissingArrowInConditional
      | Some arrowIndex =>
          let condition :=
            JsString.trim (JsString.join (JsString.slice 0 arrowIndex chars)) in
          let bodyStr :=
            JsString.trim
              (JsString.join (JsString.sliceFrom (arrowIndex + 1) chars)) in
          let conditionSeg := segment condition in
          match JsString.indexOf conditionSeg EQUALS with
          | None => Throw MissingEqualsInConditional
          | Some eqIndex =>
              lhs <- parseConcat fuel
                       (JsString.join (JsString.slice 0 eqIndex conditionSeg))
                       varMap ;;
              rhs <- parseConcat fuel
                       (JsString.join
                          (JsString.sliceFrom (eqIndex + 1) conditionSeg))
                       varMap ;;
              if JsString.eqb lhs rhs
              then
                fn <- createFn (ARROW ++ bodyStr) ;;
                match fn with
                | Some f =>
                    if (length (argNames f) =? 0)
                    then
                      st' <- interpret (body f)
                               (ScopedMap.newOver varMap, out) ;;
                      Ok (afterBlock varMap (fst st'), snd st')
                    else Ok st
                | None => Ok st
                end
              else Ok st
          end
      end
  end.

(** [argNames.forEach((arg, i) => scoped.set(arg, argsPassed[i] || ""))] *)
Fixpoint bindArgs (scoped : ScopedMap) (names : list jsstring)
  (argsPassed : list jsstring) (i : nat) : ScopedMap :=
  match names with
  | [] => scoped
  | arg :: names' =>
      bindArgs
        (ScopedMap.set scoped arg (Str (default [] (argsPassed !! i))))
        names' argsPassed (S i)
  end.

(** [interpret(lines, varMap)]: the result is the scope and the console
    after the last line.  Fuel bounds the nesting of calls and blocks and
    the iterations of each alias loop. *)
Fixpoint interpret (fuel : nat) : list jsstring -> State -> Result State :=
  let nested : list jsstring -> State -> Result State :=
    match fuel with
    | O => fun _ _ => OutOfFuel
    | S fuel' => interpret fuel'
    end in
  fix loop (lines : list jsstring) (st : State) {struct lines}
    : Result State :=
    match lines with
    | [] => Ok st
    | line :: rest =>
        let trimmed := JsString.trim line in
        if JsString.isEmpty trimmed then loop rest st
        else
          let ast := parseLine trimmed in
          let chars := segment trimmed in
          match ast with
          | Some node =>
              st' <- evaluate nested fuel node st ;;
              loop rest st'
          | None =>
              let '(varMap, out) := st in
              let fnName := head chars in
              let fnValue :=
                ScopedMap.get varMap
                  (default (JsString.ofAscii "unknown"%string) fnName) in
              match fnValue with
              | Some (Fn f) =>
                  let argsPassed := JsString.sliceFrom 1 chars in
                  if (length (argNames f) =? 0) && (0 <? length argsPassed)
                  then Throw (TakesNoArgs fnName)
                  else
                    let scoped := ScopedMap.createChild varMap in
                    let scoped := bindArgs scoped (argNames f) argsPassed 0 in
                    st' <- nested (body f) (scoped, out) ;;
                    loop rest (afterCall varMap (fst st'), snd st')
              | _ => Throw (UnknownSyntax trimmed)
              end
          end
    end.

End Interpreter.

(** The interpreter as called from within a call or a block. *)
Definition nestedInterpret (segment : jsstring -> list jsstring) (fuel : nat)
  : list jsstring -> State -> Result State :=
  match fuel with
  | O => fun _ _ => OutOfFuel
  | S fuel' => interpret segment fuel'
  end.

(** ** A concrete segmenter for running programs

    A simplified grapheme segmenter: a surrogate pair stays together, and a
    variation selector (U+FE00..U+FE0F), a zero-width joiner (U+200D) or a
    combining diacritic (U+0300..U+036F) attaches to the cluster before it.
    On text made of ASCII characters and the emoji used below this is what
    extended grapheme clusters are.  It does not keep together what the
    platform segmenter also keeps together: sequences joined by U+200D,
    emoji with a skin-tone modifier, flags, and CR LF.  It is only ever run
    on the sample texts of this file; the theorems about the code hold for
    any [segment]. *)

Module Graphemes.

Definition isHighSurrogate (c : N) : bool :=
  ((0xD800 <=? c) && (c <=? 0xDBFF))%N.
Definition isLowSurrogate (c : N) : bool :=
  ((0xDC00 <=? c) && (c <=? 0xDFFF))%N.
Definition isExtend (c : N) : bool :=
  (((0xFE00 <=? c) && (c <=? 0xFE0F))
   || (c =? 0x200D) || ((0x0300 <=? c) && (c <=? 0x036F)))%N.

(** Does [c] continue the cluster whose last code unit is [p]? *)
Definition attaches (p c : N) : bool :=
  isExtend c || (isHighSurrogate p && isLowSurrogate c).

(** [cur] is the cluster being built, in reverse. *)
Fixpoint clusters (cur : jsstring) (s : jsstring) : list jsstring :=
  match s with
  | [] => match cur with [] => [] | _ :: _ => [rev cur] end
  | c :: s' =>
      match cur with
      | [] => clusters [c] s'
      | p :: _ =>
          if attaches p c then clusters (c :: cur) s'
          else rev cur :: clusters [c] s'
      end
  end.

Definition segment (str : jsstring) : list jsstring := clusters [] str.

End Graphemes.

(** ** The program of the README *)

Module Readme.

Definition smile : jsstring := [0xD83D; 0xDE03]%N.      (* U+1F603 *)
Definition frown : jsstring := [0x2639; 0xFE0F]%N.      (* U+2639 U+FE0F *)
Definition confused : jsstring := [0xD83D; 0xDE15]%N.   (* U+1F615 *)
Definition angry : jsstring := [0xD83D; 0xDE21]%N.      (* U+1F621 *)
Definition glass : jsstring := [0xD83D; 0xDD0D]%N.      (* U+1F50D *)

Definition program : list jsstring :=
  [ smile ++ ASSIGN ++ lit "Happy";
    PRINT ++ smile ++ lit " ";
    frown ++ ASSIGN ++ lit "Sad";
    confused ++ ASSIGN ++ ARROW ++ COND ++ frown ++ EQUALS ++ lit "Sad"
      ++ ARROW ++ PRINT ++ lit "Why so sad?";
    angry ++ ASSIGN ++ FN_MARK ++ glass ++ ARROW ++ frown ++ ASSIGN ++ glass
      ++ STMT_SEP ++ PRINT ++ lit "Set " ++ frown ++ lit " to " ++ CONCAT
      ++ frown;
    confused;
    angry ++ smile;
    confused ].

End Readme.

(** ** Induction over scope chains *)

Section ScopedMapInd.
Variable P : ScopedMap -> Prop.
Variable Q : LocalStore -> Prop.
Hypothesis Hroot : forall l, Q l -> P (mkScopedMap l None).
Hypothesis Hchild : forall l p, Q l -> P p -> P (mkScopedMap l (Some p)).
Hypothesis Hmap : forall m, Q (LocalMap m).
Hypothesis Hscoped : forall s, P s -> Q (LocalScoped s).

Fixpoint ScopedMap_chain_ind (s : ScopedMap) : P s :=
  match s with
  | mkScopedMap l None => Hroot l (LocalStore_chain_ind l)
  | mkScopedMap l (Some p) =>
      Hchild l p (LocalStore_chain_ind l) (ScopedMap_chain_ind p)
  end
with LocalStore_chain_ind (l : LocalStore) : Q l :=
  match l with
  | LocalMap m => Hmap m
  | LocalScoped s => Hscoped s (ScopedMap_chain_ind s)
  end.
End ScopedMapInd.

(** ** The outline of a scope chain: the chain with every mapping emptied *)

Fixpoint shape (this : ScopedMap) : ScopedMap :=
  match this with
  | mkScopedMap l p =>
      mkScopedMap (localShape l)
        match p with Some p' => Some (shape p') | None => None end
  end
with localShape (l : LocalStore) : LocalStore :=
  match l with
  | LocalMap _ => LocalMap ∅
  | LocalScoped s => LocalScoped (shape s)
  end.

(** [run] leaves the outline of the scope it is given as it was. *)
Definition KeepsShape (run : list jsstring -> State -> Result State) : Prop :=
  forall lines st st', run lines st = Ok st' -> shape (fst st') = shape (fst st).

(** ** Alias chains *)

Module Alias.
Import ScopedMap.

(** One alias step: [a] is bound to the text [b], and [b] is bound too. *)
Definition AliasStep (varMap : ScopedMap) (a b : jsstring) : Prop :=
  get varMap a = Some (Str b) /\ has varMap b = true.

(** The loop condition fails on [val]. *)
Definition Stops (varMap : ScopedMap) (val : option VarValue) : Prop :=
  match val with
  | Some (Str s) => has varMap s = false
  | _ => True
  end.

(** [AliasChain varMap name val]: looking [name] up and following alias
    steps ends with the looked-up value [val]. *)
Inductive AliasChain (varMap : ScopedMap)
  : jsstring -> option VarValue -> Prop :=
  | chain_end name :
      Stops varMap (get varMap name) ->
      AliasChain varMap name (get varMap name)
  | chain_follow name next val :
      AliasStep varMap name next ->
      AliasChain varMap next val ->
      AliasChain varMap name val.

Definition Acyclic (varMap : ScopedMap) : Prop :=
  forall a, ~ tc (AliasStep varMap) a a.

(** The names bound anywhere along a chain. *)
Fixpoint keys (this : ScopedMap) : gset jsstring :=
  match this with
  | mkScopedMap l p =>
      localKeys l ∪ match p with Some p' => keys p' | None => ∅ end
  end
with localKeys (l : LocalStore) : gset jsstring :=
  match l with
  | LocalMap m => dom m
  | LocalScoped s => keys s
  end.

End Alias.

(** ** The wording of the specification, where it is compared with the code *)

Module SpecWording.

(** The operator symbols of the data model. *)
Definition symbols : list jsstring :=
  [ASSIGN; PRINT; COND; ARROW; EQUALS; CONCAT; FN_MARK; STMT_SEP].

(** The concatenation parser as worded: a part that is not a single
    grapheme cluster is used trimmed. *)
Definition parseConcatPartTrimmed (segment : jsstring -> list jsstring)
  (fuel : nat) (varMap : ScopedMap) (part : jsstring) : Result jsstring :=
  let trimmed := JsString.trim part in
  match segment trimmed with
  | [c] => resolveValue fuel c varMap
  | _ => Ok trimmed
  end.

Definition parseConcatTrimmed (segment : jsstring -> list jsstring)
  (fuel : nat) (raw : jsstring) (varMap : ScopedMap) : Result jsstring :=
  parts <- mapR (parseConcatPartTrimmed segment fuel varMap)
             (JsString.split raw CONCAT) ;;
  Ok (JsString.join parts).

End SpecWording.

(** What the code makes of one part of a concatenation: a single grapheme
    cluster is resolved, anything else is the part as it stands. *)
Definition PartResult (segment : jsstring -> list jsstring) (fuel : nat)
  (varMap : ScopedMap) (part piece : jsstring) : Prop :=
  match segment (JsString.trim part) with
  | [c] => resolveValue fuel c varMap = Ok piece
  | _ => piece = part
  end.

(** [raw] begins with the function marker or with the arrow. *)
Definition beginsWithMarker (raw : jsstring) : Prop :=
  (exists rest, raw = FN_MARK ++ rest) \/ (exists rest, raw = ARROW ++ rest).

(** The tokens that start a statement. *)
Definition statementTokens : list jsstring := [ASSIGN; PRINT; COND].

(** The arguments of the node for token [t] found at index [i] of [chars]:
    the trimmed text before and after for ASSIGN, the clusters after [i]
    for the other tokens. *)
Definition nodeArgs (t : Token) (i : nat) (chars : list jsstring)
  : list jsstring :=
  match t with
  | AssignToken =>
      [JsString.trim (concat (take i chars));
       JsString.trim (concat (drop (S i) chars))]
  | _ => drop (S i) chars
  end.

(** ** Sample environments and programs *)

Module Samples.

Definition root (bindings : list (jsstring * VarValue)) : ScopedMap :=
  mkScopedMap (LocalMap (list_to_map bindings)) None.

(** [A] is an alias of [B], [B] of [C], and [C] holds a literal. *)
Definition chainEnv : ScopedMap :=
  root [(lit "A", Str (lit "B")); (lit "B", Str (lit "C"));
        (lit "C", Str (lit "hello"))].

Definition chainRank (name : jsstring) : nat :=
  if decide (name = lit "A") then 3
  else if decide (name = lit "B") then 2
  else if decide (name = lit "C") then 1
  else 0.

(** [A] is an alias of [B], and [B] holds a function. *)
Definition fnEndEnv : ScopedMap :=
  root [(lit "A", Str (lit "B")); (lit "B", Fn (mkFn [] []))].

(** [F] is a function of no parameter that assigns the new name [N]. *)
Definition newNameInCall : list jsstring :=
  [ lit "F" ++ ASSIGN ++ ARROW ++ lit "N" ++ ASSIGN ++ lit "new";
    lit "F" ].

(** [F] re-assigns [X], which the top-level scope binds already. *)
Definition boundNameInCall : list jsstring :=
  [ lit "X" ++ ASSIGN ++ lit "old";
    lit "F" ++ ASSIGN ++ ARROW ++ lit "X" ++ ASSIGN ++ lit "new";
    lit "F" ].

(** A conditional block that assigns the new name [N]. *)
Definition newNameInBlock : list jsstring :=
  [ COND ++ lit "a" ++ EQUALS ++ lit "a" ++ ARROW
      ++ lit "N" ++ ASSIGN ++ lit "new" ].

(** [F] is a function of one parameter [P] that prints it; it is called
    with the argument [X]. *)
Definition oneParameterCall : list jsstring :=
  [ lit "F" ++ ASSIGN ++ FN_MARK ++ lit "P" ++ ARROW ++ PRINT ++ lit "P";
    lit "FX" ].

(** A scope in which [F] is a function of no parameter, and one in which
    it is a function of the parameter [P]. *)
Definition zeroParameterEnv : ScopedMap :=
  root [(lit "F", Fn (mkFn [] [PRINT ++ lit "Hi"]))].

Definition oneParameterEnv : ScopedMap :=
  root [(lit "F", Fn (mkFn [lit "P"] [PRINT ++ lit "P"]))].

(** A run from the empty top-level scope and an empty console. *)
Definition run (fuel : nat) (lines : list jsstring) : Result State :=
  interpret Graphemes.segment fuel lines (ScopedMap.new, []).

(** The binding of [name] in the scope a run ends with. *)
Definition finalBinding (r : Result State) (name : jsstring)
  : option VarValue :=
  match r with
  | Ok (varMap, _) => ScopedMap.get varMap name
  | _ => None
  end.

Definition printed (r : Result State) : option (list jsstring) :=
  match r with
  | Ok (_, out) => Some out
  | _ => None
  end.

End Samples.

(** ** Loading a program: the top level of the source *)

(** [parts.join(sep)] *)
Fixpoint joinWith (sep : jsstring) (parts : list jsstring) : jsstring :=
  match parts with
  | [] => []
  | [p] => p
  | p :: parts' => p ++ sep ++ joinWith sep parts'
  end.

Definition commentMarker : jsstring := lit "// ".
Definition lineFeed : jsstring := [10%N].

(** [l.split("// ")[0] ?? ""] *)
Definition stripComment (l : jsstring) : jsstring :=
  default [] (head (JsString.split l commentMarker)).

(** [program.split("\n").map(...).filter((line) => line.trim())] *)
Definition loadProgram (source : jsstring) : list jsstring :=
  filter (fun line => JsString.isEmpty (JsString.trim line) = false)
    (map stripComment (JsString.split source lineFeed)).

(** [interpret(loadProgram(program))], with the default [new ScopedMap()]. *)
Definition runSource (segment : jsstring -> list jsstring) (fuel : nat)
  (source : jsstring) : Result State :=
  interpret segment fuel (loadProgram source) (ScopedMap.new, []).

(** [sep] occurs nowhere in [s]. *)
Definition Without (sep s : jsstring) : Prop :=
  forall pre post, s <> pre ++ sep ++ post.

(** [run] only ever adds lines to the console. *)
Definition KeepsOutput (run : list jsstring -> State -> Result State) : Prop :=
  forall lines st st', run lines st = Ok st' -> exists more, snd st' = snd st ++ more.

(** Further sample scopes. *)
Module MoreSamples.

(** A top-level scope under a call scope: [X] is bound at the top. *)
Definition nested : ScopedMap :=
  ScopedMap.createChild (Samples.root [(lit "X", Str (lit "old"))]).

End MoreSamples.

(** * Properties *)

(** ** The string operations and the segmenter on examples *)

Example split_on_CONCAT :
  JsString.split (lit "a" ++ CONCAT ++ lit " b" ++ CONCAT ++ CONCAT) CONCAT
  = [lit "a"; lit " b"; []; []].
Proof. reflexivity. Qed.

Example split_on_STMT_SEP :
  JsString.split (lit "x" ++ STMT_SEP ++ lit "y z") STMT_SEP
  = [lit "x"; lit "y z"].
Proof. reflexivity. Qed.

Example split_empty : JsString.split [] CONCAT = [[]].
Proof. reflexivity. Qed.

Example trim_spaces : JsString.trim (lit "  a b  ") = lit "a b".
Proof. reflexivity. Qed.

Example segment_statement :
  Graphemes.segment (Readme.frown ++ ASSIGN ++ lit "Sad")
  = [Readme.frown; ASSIGN; lit "S"; lit "a"; lit "d"].
Proof. reflexivity. Qed.

(** The clusters of a string, put together again, are the string. *)
Lemma clusters_concat (s : jsstring) : forall cur,
  concat (Graphemes.clusters cur s) = rev cur ++ s.
Proof.
  induction s as [|c s IH]; intros cur; simpl.
  - destruct cur; simpl; [reflexivity|].
    rewrite !app_nil_r. reflexivity.
  - destruct cur as [|p cur].
    + rewrite IH. reflexivity.
    + destruct (Graphemes.attaches p c); simpl; rewrite IH; simpl.
      * rewrite <- !app_assoc. reflexivity.
      * reflexivity.
Qed.

Lemma segment_concat (s : jsstring) : concat (Graphemes.segment s) = s.
Proof. apply clusters_concat. Qed.

(** The program of the README, run: [Happy] is printed first, as its comment
    announces. *)
Example readme_output :
  Samples.printed (Samples.run 3 Readme.program)
  = Some [lit "Happy"; lit "Why so sad?";
          lit "Set " ++ Readme.frown ++ lit " to Happy"].
Proof. vm_compute. reflexivity. Qed.


(** ** Lookup and update on scope chains *)

Module ScopedMapFacts.
Import ScopedMap.

Lemma has_eq l p key :
  has (mkScopedMap l p) key = localHas l key || parentHas p key.
Proof. reflexivity. Qed.

Lemma get_eq l p key :
  get (mkScopedMap l p) key =
  if localHas l key then localGet l key else parentGet p key.
Proof. reflexivity. Qed.

Lemma set_eq l p key value :
  set (mkScopedMap l p) key value =
  if localHas l key || noParent p
  then mkScopedMap (localSet l key value) p
  else mkScopedMap l (parentSet p key value).
Proof. destruct p; simpl; destruct (localHas l key); reflexivity. Qed.

(** [has] says exactly whether [get] finds a value. *)
Lemma has_get this key : has this key = bool_decide (is_Some (get this key)).
Proof.
  revert this.
  apply (ScopedMap_chain_ind
           (fun this => has this key = bool_decide (is_Some (get this key)))
           (fun l => localHas l key = bool_decide (is_Some (localGet l key))));
    simpl.
  - intros l Hl. rewrite orb_false_r. destruct (localHas l key) eqn:E.
    + exact Hl.
    + symmetry. apply bool_decide_eq_false. intros [? ?]; discriminate.
  - intros l p Hl Hp. destruct (localHas l key) eqn:E; simpl.
    + exact Hl.
    + exact Hp.
  - reflexivity.
  - intros s Hs. exact Hs.
Qed.

Lemma has_true_get this key :
  has this key = true <-> is_Some (get this key).
Proof. rewrite has_get. apply bool_decide_eq_true. Qed.

Lemma has_false_get this key :
  has this key = false <-> get this key = None.
Proof.
  rewrite has_get, bool_decide_eq_false, <- eq_None_not_Some. reflexivity.
Qed.

Lemma localHas_get l key :
  localHas l key = bool_decide (is_Some (localGet l key)).
Proof. destruct l; simpl; [reflexivity | apply has_get]. Qed.

(** What was just set is what is read back, through any chain. *)
Lemma get_set_eq this key value :
  get (set this key value) key = Some value.
Proof.
  revert this.
  apply (ScopedMap_chain_ind
           (fun this => get (set this key value) key = Some value)
           (fun l => localGet (localSet l key value) key = Some value)).
  - intros l Hl. rewrite set_eq. simpl. rewrite orb_true_r. rewrite get_eq.
    rewrite localHas_get, Hl. reflexivity.
  - intros l p Hl Hp. rewrite set_eq. simpl. rewrite orb_false_r.
    destruct (localHas l key) eqn:E; rewrite get_eq.
    + rewrite localHas_get, Hl. reflexivity.
    + rewrite E. exact Hp.
  - intros m. simpl. apply lookup_insert_eq.
  - intros s Hs. exact Hs.
Qed.

(** Other keys are not affected by a [set]. *)
Lemma get_set_ne this key value key' :
  key ≠ key' -> get (set this key value) key' = get this key'.
Proof.
  intros Hne. revert this.
  apply (ScopedMap_chain_ind
           (fun this => get (set this key value) key' = get this key')
           (fun l => localGet (localSet l key value) key' = localGet l key')).
  - intros l Hl. rewrite set_eq. simpl. rewrite orb_true_r.
    rewrite !get_eq, !localHas_get, Hl. reflexivity.
  - intros l p Hl Hp. rewrite set_eq. simpl. rewrite orb_false_r.
    destruct (localHas l key) eqn:E; rewrite !get_eq; simpl.
    + rewrite !localHas_get, Hl. reflexivity.
    + rewrite Hp. reflexivity.
  - intros m. simpl. apply lookup_insert_ne. exact Hne.
  - intros s Hs. exact Hs.
Qed.

End ScopedMapFacts.

Module ScopedMapRules.
Import ScopedMap ScopedMapFacts.

Lemma localGet_localSet_eq l key value :
  localGet (localSet l key value) key = Some value.
Proof. destruct l; simpl; [apply lookup_insert_eq | apply get_set_eq]. Qed.

Lemma localHas_localSet_eq l key value :
  localHas (localSet l key value) key = true.
Proof.
  rewrite localHas_get, localGet_localSet_eq.
  apply bool_decide_eq_true. eauto.
Qed.

(** C3. For every scope, key and value: [get] and [has] consult the local
    mapping first and go to the parent only when the key is absent there;
    [set] stores into the local mapping exactly when the key is present in
    it or the scope has no parent, and otherwise hands the [set] to the
    parent and leaves the local mapping alone. *)
Theorem get_has_set_rule l p key value :
  let this := mkScopedMap l p in
  get this key = (if localHas l key then localGet l key else parentGet p key)
  /\ has this key = (if localHas l key then true else parentHas p key)
  /\ set this key value =
       (if localHas l key || noParent p
        then mkScopedMap (localSet l key value) p
        else mkScopedMap l (parentSet p key value))
  /\ (local (set this key value) = localSet l key value
      <-> localHas l key = true \/ p = None)
  /\ localGet (localSet l key value) key = Some value.
Proof.
  cbv zeta. split; [reflexivity|]. split; [reflexivity|].
  split; [apply set_eq|]. split; [|apply localGet_localSet_eq].
  rewrite set_eq. destruct (localHas l key) eqn:E; simpl.
  - split; [left; reflexivity | reflexivity].
  - destruct p as [p'|]; simpl.
    + split.
      * intros Heq. exfalso.
        pose proof (localHas_localSet_eq l key value) as H.
        rewrite <- Heq, E in H. discriminate.
      * intros [H|H]; discriminate.
    + split; [right; reflexivity | reflexivity].
Qed.

End ScopedMapRules.


(** ** The value resolver *)

Module Resolver.
Import ScopedMap ScopedMapFacts Alias.

Lemma has_keys this key : has this key = true <-> key ∈ keys this.
Proof.
  revert this.
  apply (ScopedMap_chain_ind
           (fun this => has this key = true <-> key ∈ keys this)
           (fun l => localHas l key = true <-> key ∈ localKeys l)); simpl.
  - intros l Hl. rewrite orb_false_r, Hl, elem_of_union.
    split; [auto | intros [H|H]; [exact H | inversion H]].
  - intros l p Hl Hp. rewrite orb_true_iff, Hl, Hp, elem_of_union.
    reflexivity.
  - intros m. rewrite bool_decide_eq_true. symmetry. apply elem_of_dom.
  - intros s Hs. exact Hs.
Qed.

Lemma resolveLoop_chain fuel varMap : forall name val,
  resolveLoop fuel varMap (get varMap name) = Some val ->
  AliasChain varMap name val.
Proof.
  induction fuel as [|fuel IH]; intros name val; simpl;
    destruct (get varMap name) as [[s|f]|] eqn:Hget.
  - destruct (has varMap s) eqn:Hs; [discriminate|].
    intros [= <-]. rewrite <- Hget. apply chain_end. rewrite Hget. exact Hs.
  - intros [= <-]. rewrite <- Hget. apply chain_end. rewrite Hget. exact I.
  - intros [= <-]. rewrite <- Hget. apply chain_end. rewrite Hget. exact I.
  - destruct (has varMap s) eqn:Hs.
    + intros H. apply (chain_follow _ _ s); [split; assumption|].
      apply IH. exact H.
    + intros [= <-]. rewrite <- Hget. apply chain_end. rewrite Hget. exact Hs.
  - intros [= <-]. rewrite <- Hget. apply chain_end. rewrite Hget. exact I.
  - intros [= <-]. rewrite <- Hget. apply chain_end. rewrite Hget. exact I.
Qed.

Lemma resolveLoop_stops varMap val : Stops varMap val ->
  forall fuel, resolveLoop fuel varMap val = Some val.
Proof.
  intros Hstop fuel. destruct fuel, val as [[s|f]|]; simpl in *;
    try reflexivity; rewrite Hstop; reflexivity.
Qed.

Lemma chain_resolveLoop varMap name val :
  AliasChain varMap name val ->
  exists fuel, resolveLoop fuel varMap (get varMap name) = Some val.
Proof.
  induction 1 as [name Hstop | name next val [Hget Hhas] _ [fuel IH]].
  - exists 0. apply resolveLoop_stops. exact Hstop.
  - exists (S fuel). rewrite Hget. simpl. rewrite Hhas. exact IH.
Qed.

Lemma chain_stops varMap name val :
  AliasChain varMap name val -> Stops varMap val.
Proof. induction 1; assumption. Qed.

(** A chain that ends with a value starts at a bound name. *)
Lemma chain_bound varMap name val :
  AliasChain varMap name val -> is_Some val -> has varMap name = true.
Proof.
  intros Hc Hv. apply has_true_get.
  destruct Hc as [name _ | name next val [Hget _] _]; [exact Hv|].
  rewrite Hget. eauto.
Qed.

(** A chain ends at a missing binding only if [name] itself is unbound. *)
Lemma chain_none varMap name val :
  AliasChain varMap name val -> val = None -> get varMap name = None.
Proof.
  induction 1 as [name _ | name next val [_ Hhas] _ IH]; intros Hval.
  - exact Hval.
  - specialize (IH Hval). apply has_false_get in IH. congruence.
Qed.

(** *** What [resolveValue] returns *)

Lemma resolveValue_Ok fuel name varMap r :
  resolveValue fuel name varMap = Ok r ->
  exists val,
    resolveLoop fuel varMap (get varMap name) = Some val
    /\ r = match val with Some (Str s) => s | _ => name end.
Proof.
  unfold resolveValue.
  destruct (resolveLoop fuel varMap (get varMap name)) as [val|];
    [|discriminate].
  intros H. exists val. split; [reflexivity|].
  destruct val as [[s|f]|]; congruence.
Qed.

(** C4, as the code has it. Whenever [resolveValue] returns, the alias
    chain from [name] ends with some looked-up value; the result is that
    value when it is text, and the original [name] otherwise.  The
    original name comes back unchanged exactly when [name] has no binding
    or the chain ends at a function value. *)
Theorem resolveValue_result fuel name varMap r :
  resolveValue fuel name varMap = Ok r ->
  exists val,
    AliasChain varMap name val
    /\ r = match val with Some (Str s) => s | _ => name end
    /\ (r = name <->
        get varMap name = None \/ exists f, val = Some (Fn f)).
Proof.
  intros H. apply resolveValue_Ok in H as (val & Hloop & Hr).
  apply resolveLoop_chain in Hloop.
  exists val. split; [exact Hloop|]. split; [exact Hr|].
  destruct val as [[s|f]|].
  - split.
    + intros Heq. exfalso.
      pose proof (chain_stops _ _ _ Hloop) as Hstop. simpl in Hstop.
      pose proof (chain_bound _ _ _ Hloop ltac:(eauto)) as Hbound.
      congruence.
    + intros [Hnone | [f Hf]]; [|discriminate].
      apply has_false_get in Hnone.
      pose proof (chain_bound _ _ _ Hloop ltac:(eauto)). congruence.
  - split; [eauto | intros _; exact Hr].
  - split; [|intros _; exact Hr].
    intros _. left. apply (chain_none _ _ _ Hloop). reflexivity.
Qed.

(** More fuel does not change a result, and every chain is run to its end
    by some amount of fuel. *)
Lemma resolveLoop_more_fuel varMap fuel : forall val r fuel',
  resolveLoop fuel varMap val = Some r ->
  fuel <= fuel' ->
  resolveLoop fuel' varMap val = Some r.
Proof.
  induction fuel as [|fuel IH]; intros val r fuel' Hrun Hle;
    destruct val as [[s|f]|]; simpl in Hrun;
    try (rewrite resolveLoop_stops; [exact Hrun | exact I]).
  - destruct (has varMap s) eqn:Hs; [discriminate|].
    rewrite resolveLoop_stops; [exact Hrun | exact Hs].
  - destruct (has varMap s) eqn:Hs.
    + destruct fuel' as [|fuel']; [lia|]. simpl. rewrite Hs.
      apply IH; [exact Hrun | lia].
    + rewrite resolveLoop_stops; [exact Hrun | exact Hs].
Qed.

Lemma resolveValue_more_fuel varMap name fuel fuel' r :
  resolveValue fuel name varMap = Ok r ->
  fuel <= fuel' ->
  resolveValue fuel' name varMap = Ok r.
Proof.
  unfold resolveValue. intros Hrun Hle.
  destruct (resolveLoop fuel varMap (get varMap name)) as [val|] eqn:Hloop;
    [|discriminate].
  rewrite (resolveLoop_more_fuel _ _ _ _ _ Hloop Hle). exact Hrun.
Qed.

Lemma resolveValue_chain varMap name val :
  AliasChain varMap name val ->
  exists fuel,
    resolveValue fuel name varMap
    = Ok match val with Some (Str s) => s | _ => name end.
Proof.
  intros Hchain. apply chain_resolveLoop in Hchain as [fuel Hloop].
  exists fuel. unfold resolveValue. rewrite Hloop.
  destruct val as [[s|f]|]; reflexivity.
Qed.

(** *** Termination on acyclic alias chains *)

Lemma resolveLoop_enough_fuel varMap : Acyclic varMap ->
  forall fuel (X : gset jsstring) val,
    size X <= fuel ->
    (forall s, val = Some (Str s) -> has varMap s = true ->
               forall b, rtc (AliasStep varMap) s b -> b ∈ X) ->
    is_Some (resolveLoop fuel varMap val).
Proof.
  intros Hacyclic.
  induction fuel as [|fuel IH]; intros X val Hsize HX;
    destruct val as [[s|f]|]; simpl; eauto;
    destruct (has varMap s) eqn:Hs; eauto.
  - exfalso. pose proof (HX s eq_refl Hs s (rtc_refl _ _)) as Hin.
    assert (size X = 0) as H0 by lia.
    apply size_empty_iff in H0. rewrite H0 in Hin. inversion Hin.
  - pose proof (HX s eq_refl Hs s (rtc_refl _ _)) as Hin.
    apply (IH (X ∖ {[s]})).
    + assert (size (X ∖ {[s]}) = size X - size ({[s]} : gset jsstring)) as E.
      { apply size_difference. apply singleton_subseteq_l. exact Hin. }
      rewrite E, size_singleton. lia.
    + intros s' Hget Hs' b Hreach.
      assert (AliasStep varMap s s') as Hstep by (split; assumption).
      apply elem_of_difference. split.
      * apply (HX s eq_refl Hs). eapply rtc_l; eassumption.
      * intros Hb. apply elem_of_singleton in Hb. subst b.
        apply (Hacyclic s). eapply tc_rtc_r; [apply tc_once|]; eassumption.
Qed.

Lemma rtc_step_bound varMap a b :
  has varMap a = true -> rtc (AliasStep varMap) a b -> has varMap b = true.
Proof. intros Ha Hrtc. induction Hrtc as [|a b c [_ Hb] _ IH]; auto. Qed.

(** C9. On an environment whose alias steps never return to a name
    already visited, [resolveValue] returns: as many loop iterations as
    there are bound names always suffice. *)
Theorem resolveValue_terminates varMap name fuel :
  Acyclic varMap ->
  size (keys varMap) <= fuel ->
  exists r, resolveValue fuel name varMap = Ok r.
Proof.
  intros Hacyclic Hfuel.
  destruct (resolveLoop_enough_fuel varMap Hacyclic fuel (keys varMap)
              (get varMap name) Hfuel) as [val Hval].
  - intros s _ Hs b Hreach. apply has_keys.
    eapply rtc_step_bound; eassumption.
  - unfold resolveValue. rewrite Hval.
    destruct val as [[s|f]|]; eauto.
Qed.

(** A rank that decreases along alias steps rules out cycles. *)
Lemma acyclic_by_rank varMap (rank : jsstring -> nat) :
  (forall a b, AliasStep varMap a b -> rank b < rank a) -> Acyclic varMap.
Proof.
  intros Hrank a Hcycle.
  assert (forall x y, tc (AliasStep varMap) x y -> rank y < rank x) as Htc.
  { induction 1 as [x y Hxy | x y z Hxy _ IH].
    - apply Hrank. exact Hxy.
    - apply Hrank in Hxy. lia. }
  apply Htc in Hcycle. lia.
Qed.

(** *** The resolver on the sample environments *)

Lemma chainEnv_acyclic : Acyclic Samples.chainEnv.
Proof.
  apply (acyclic_by_rank _ Samples.chainRank).
  intros a b [Hget Hhas].
  destruct (decide (a = lit "A")) as [->|HA];
    [vm_compute in Hget; injection Hget as <-; vm_compute; lia|].
  destruct (decide (a = lit "B")) as [->|HB];
    [vm_compute in Hget; injection Hget as <-; vm_compute; lia|].
  destruct (decide (a = lit "C")) as [->|HC];
    [vm_compute in Hget; injection Hget as <-; vm_compute in Hhas;
     discriminate|].
  exfalso. unfold Samples.chainEnv, Samples.root in Hget.
  rewrite get_eq in Hget.
  cbn [localHas localGet parentGet list_to_map foldr fst snd] in Hget.
  rewrite !lookup_insert_ne, lookup_empty in Hget
    by (intros E; symmetry in E; contradiction).
  destruct (bool_decide (is_Some None)); discriminate.
Qed.

Lemma resolveValue_terminates_witness :
  Acyclic Samples.chainEnv
  /\ size (keys Samples.chainEnv) <= 3
  /\ exists r, resolveValue 3 (lit "A") Samples.chainEnv = Ok r.
Proof.
  split; [exact chainEnv_acyclic|]. split; [vm_compute; lia|].
  apply (resolveValue_terminates Samples.chainEnv (lit "A") 3).
  - exact chainEnv_acyclic.
  - vm_compute. lia.
Defined.

Lemma resolveValue_result_witness :
  resolveValue 3 (lit "A") Samples.chainEnv = Ok (lit "hello")
  /\ exists val,
       AliasChain Samples.chainEnv (lit "A") val
       /\ lit "hello" = match val with Some (Str s) => s | _ => lit "A" end
       /\ (lit "hello" = lit "A" <->
           get Samples.chainEnv (lit "A") = None
           \/ exists f, val = Some (Fn f)).
Proof.
  split; [vm_compute; reflexivity|].
  apply (resolveValue_result 3 (lit "A") Samples.chainEnv (lit "hello")).
  vm_compute. reflexivity.
Defined.

(** C4 as stated fails: with [A] an alias of [B] and [B] bound to a
    function, [resolveValue] returns the original name [A] although [A] is
    bound and the last text met along the chain is [B]. *)
Lemma resolveValue_function_end_counterexample :
  ~ (forall fuel name varMap r,
       resolveValue fuel name varMap = Ok r ->
       (r = name <-> get varMap name = None)
       /\ (forall next f,
             get varMap name = Some (Str next) ->
             get varMap next = Some (Fn f) -> r = next)).
Proof.
  intros H.
  destruct (H 1 (lit "A") Samples.fnEndEnv (lit "A") eq_refl) as [[Hnone _] _].
  specialize (Hnone eq_refl). vm_compute in Hnone. discriminate.
Qed.


End Resolver.

(** ** The concatenation parser *)

Lemma mapR_Ok {A B} (f : A -> Result B) (l : list A) (bs : list B) :
  mapR f l = Ok bs <-> Forall2 (fun a b => f a = Ok b) l bs.
Proof.
  revert bs. induction l as [|a l IH]; intros bs; simpl.
  - split.
    + intros [= <-]. constructor.
    + intros H. inversion H. reflexivity.
  - split.
    + destruct (f a) as [b| |] eqn:Hfa; simpl; try discriminate.
      destruct (mapR f l) as [bs'| |] eqn:Hl; simpl; try discriminate.
      intros [= <-]. constructor; [exact Hfa|]. apply IH. reflexivity.
    + intros H. inversion H as [|? b ? bs' Hfa Hrest]; subst.
      rewrite Hfa. simpl. apply IH in Hrest. rewrite Hrest. reflexivity.
Qed.

Section ConcatParser.
Variable segment : jsstring -> list jsstring.

Lemma parseConcatPart_result fuel varMap part piece :
  parseConcatPart segment fuel varMap part = Ok piece
  <-> PartResult segment fuel varMap part piece.
Proof.
  unfold parseConcatPart, PartResult.
  destruct (segment (JsString.trim part)) as [|c [|c' chars]];
    try reflexivity; split; congruence.
Qed.

(** C5, as the code has it. [parseConcat] splits [raw] on CONCAT; a part
    whose trimmed text is exactly one grapheme cluster is resolved as a
    variable name, every other part is used as it stands, untrimmed; the
    pieces are joined with no separator. *)
Theorem parseConcat_result fuel raw varMap r :
  parseConcat segment fuel raw varMap = Ok r
  <-> exists pieces,
        Forall2 (PartResult segment fuel varMap)
          (JsString.split raw CONCAT) pieces
        /\ r = concat pieces.
Proof.
  unfold parseConcat. split.
  - destruct (mapR _ _) as [pieces| |] eqn:Hmap; simpl; try discriminate.
    intros [= <-]. exists pieces. split; [|reflexivity].
    apply mapR_Ok in Hmap.
    eapply Forall2_impl; [exact Hmap|].
    intros part piece. apply parseConcatPart_result.
  - intros (pieces & Hparts & ->).
    assert (mapR (parseConcatPart segment fuel varMap)
              (JsString.split raw CONCAT) = Ok pieces) as ->.
    { apply mapR_Ok. eapply Forall2_impl; [exact Hparts|].
      intros part piece. apply parseConcatPart_result. }
    reflexivity.
Qed.

End ConcatParser.

(** C5 as stated fails: the literal part of ["Hi " CONCAT "x"] keeps its
    trailing space in the code, and loses it in the wording. *)
Lemma parseConcat_untrimmed_counterexample :
  let raw := lit "Hi " ++ CONCAT ++ lit "x" in
  parseConcat Graphemes.segment 0 raw ScopedMap.new = Ok (lit "Hi x")
  /\ SpecWording.parseConcatTrimmed Graphemes.segment 0 raw ScopedMap.new
     = Ok (lit "Hix")
  /\ parseConcat Graphemes.segment 0 raw ScopedMap.new
     <> SpecWording.parseConcatTrimmed Graphemes.segment 0 raw ScopedMap.new.
Proof. repeat split; vm_compute; congruence. Qed.

(** ** Arrays of grapheme clusters *)

Lemma indexOf_Some (arr : list jsstring) (x : jsstring) (i : nat) :
  JsString.indexOf arr x = Some i
  <-> arr !! i = Some x /\ forall j, j < i -> arr !! j <> Some x.
Proof.
  revert i. induction arr as [|y arr IH]; intros i; simpl.
  - split; [discriminate | intros [H _]; discriminate].
  - unfold JsString.eqb. case_bool_decide as Hyx.
    + subst y. split.
      * intros [= <-]. split; [reflexivity | intros j Hj; lia].
      * intros [Hi Hfirst]. destruct i as [|i]; [reflexivity|].
        exfalso. apply (Hfirst 0); [lia | reflexivity].
    + destruct i as [|i].
      * split.
        -- destruct (JsString.indexOf arr x); discriminate.
        -- intros [[= ->] _]. contradiction.
      * split.
        -- intros H. apply fmap_Some in H as (k & Hk & [= ->]).
           apply IH in Hk as [Hi Hfirst].
           split; [exact Hi|].
           intros [|j] Hj; simpl; [congruence | apply Hfirst; lia].
        -- intros [Hi Hfirst].
           assert (JsString.indexOf arr x = Some i) as ->; [|reflexivity].
           apply IH. split; [exact Hi|].
           intros j Hj. apply (Hfirst (S j)). lia.
Qed.

Lemma indexOf_None (arr : list jsstring) (x : jsstring) :
  JsString.indexOf arr x = None <-> x ∉ arr.
Proof.
  induction arr as [|y arr IH]; simpl.
  - split; [intros _ H; inversion H | reflexivity].
  - unfold JsString.eqb. case_bool_decide as Hyx.
    + subst y. split; [discriminate|]. intros H. exfalso. apply H. left.
    + rewrite not_elem_of_cons, <- IH, fmap_None. split; [|tauto].
      intros H. split; [congruence | exact H].
Qed.

Lemma startsWith_prefix (s p : jsstring) :
  JsString.startsWith s p = true <-> exists rest, s = p ++ rest.
Proof.
  revert s. induction p as [|a p IH]; intros s; simpl.
  - split; [intros _; exists s; reflexivity | destruct s; reflexivity].
  - destruct s as [|b s].
    + split; [discriminate | intros [rest H]; discriminate].
    + simpl. rewrite andb_true_iff, N.eqb_eq, IH. split.
      * intros [-> [rest ->]]. exists rest. reflexivity.
      * intros [rest [= -> ->]]. split; [reflexivity | exists rest; reflexivity].
Qed.

(** ** The function value builder *)

Section FunctionBuilder.
Variable segment : jsstring -> list jsstring.

Lemma beginsWithMarker_orb raw :
  JsString.startsWith raw FN_MARK || JsString.startsWith raw ARROW = true
  <-> beginsWithMarker raw.
Proof.
  unfold beginsWithMarker. rewrite orb_true_iff, !startsWith_prefix.
  reflexivity.
Qed.

(** C7. [createFn] returns absent exactly when [raw] does not begin with
    FN_MARK or ARROW; it throws exactly when [raw] begins with one of them
    and no grapheme cluster of it is ARROW; otherwise the function it
    returns has for parameters the clusters strictly between the first
    cluster and the first ARROW, and for body the text after that ARROW,
    rejoined and split on STMT_SEP. *)
Theorem createFn_result raw :
  (createFn segment raw = Ok None <-> ~ beginsWithMarker raw)
  /\ (createFn segment raw = Throw FunctionDefinitionMissingArrow
      <-> beginsWithMarker raw /\ ARROW ∉ segment raw)
  /\ (forall f,
        createFn segment raw = Ok (Some f)
        <-> beginsWithMarker raw
            /\ exists i,
                 segment raw !! i = Some ARROW
                 /\ (forall j, j < i -> segment raw !! j <> Some ARROW)
                 /\ length (argNames f) = i - 1
                 /\ (forall k, S k < i ->
                       argNames f !! k = segment raw !! S k)
                 /\ body f =
                    JsString.split (concat (drop (S i) (segment raw)))
                      STMT_SEP)
  /\ (forall e, createFn segment raw = Throw e ->
        e = FunctionDefinitionMissingArrow)
  /\ createFn segment raw <> OutOfFuel.
Proof.
  unfold createFn.
  pose proof (beginsWithMarker_orb raw) as Hbegins.
  destruct (JsString.startsWith raw FN_MARK || JsString.startsWith raw ARROW).
  - assert (beginsWithMarker raw) as Hb by (apply Hbegins; reflexivity).
    destruct (JsString.indexOf (segment raw) ARROW) as [i|] eqn:Hidx.
    + apply indexOf_Some in Hidx as [Hi Hfirst].
      assert (ARROW ∈ segment raw) as Hin
          by (eapply list_elem_of_lookup_2; exact Hi).
      split; [split; [discriminate | tauto]|].
      split; [split; [discriminate | tauto]|].
      split; [|split; [discriminate | discriminate]].
      intros f. split.
      * intros [= <-]. split; [exact Hb|]. exists i. simpl.
        unfold JsString.slice, JsString.join, JsString.sliceFrom.
        split; [exact Hi|]. split; [exact Hfirst|]. split; [|split].
        -- rewrite length_take, length_drop.
           apply lookup_lt_Some in Hi. lia.
        -- intros k Hk. rewrite lookup_take_lt by lia.
           rewrite lookup_drop. reflexivity.
        -- replace (i + 1) with (S i) by lia. reflexivity.
      * intros (_ & j & Hj & Hjfirst & Hlen & Hargs & Hbody).
        assert (j = i) as ->.
        { destruct (Nat.lt_trichotomy j i) as [Hlt|[Heq|Hgt]];
            [exfalso; eapply Hfirst; eassumption | exact Heq |
             exfalso; eapply Hjfirst; eassumption]. }
        destruct f as [names fbody]. simpl in *.
        assert (names = JsString.slice 1 i (segment raw)) as ->.
        { unfold JsString.slice. apply list_eq. intros k.
          destruct (decide (S k < i)) as [Hk|Hk].
          - rewrite Hargs by exact Hk. rewrite lookup_take_lt by lia.
            rewrite lookup_drop. reflexivity.
          - rewrite (lookup_ge_None_2 names) by lia.
            symmetry. apply lookup_ge_None_2. rewrite length_take. lia. }
        rewrite Hbody. unfold JsString.join, JsString.sliceFrom.
        replace (i + 1) with (S i) by lia. reflexivity.
    + apply indexOf_None in Hidx.
      split; [split; [discriminate | tauto]|].
      split; [split; [tauto | reflexivity]|].
      split; [|split; [congruence | discriminate]].
      intros f. split; [discriminate|].
      intros (_ & i & Hi & _). exfalso. apply Hidx.
      eapply list_elem_of_lookup_2. exact Hi.
  - assert (~ beginsWithMarker raw) as Hb
        by (intros H; apply Hbegins in H; discriminate).
    split; [split; [tauto | reflexivity]|].
    split; [split; [discriminate | tauto]|].
    split; [|split; [discriminate | discriminate]].
    intros f. split; [discriminate | tauto].
Qed.

End FunctionBuilder.

(** ** The statement dispatcher *)

Lemma find_token (c : jsstring) :
  match find (fun t => JsString.eqb (token t) c) tokens with
  | Some t => c = token t
  | None => c ∉ statementTokens
  end.
Proof.
  unfold tokens, statementTokens, JsString.eqb. simpl.
  repeat (case_bool_decide; [symmetry; assumption|]).
  rewrite !not_elem_of_cons.
  split; [congruence|]. split; [congruence|]. split; [congruence|].
  apply not_elem_of_nil.
Qed.

Lemma eqb_token_ASSIGN (t : Token) :
  JsString.eqb (token t) ASSIGN = true <-> t = AssignToken.
Proof. destruct t; vm_compute; split; congruence. Qed.

(** The arguments of the node for token [t] found at index [i]. *)
Lemma parseLineFrom_result (chars : list jsstring) :
  forall todo i, drop i chars = todo ->
    match parseLineFrom chars i todo with
    | None =>
        forall k c, i <= k -> chars !! k = Some c -> c ∉ statementTokens
    | Some node =>
        exists k,
          i <= k
          /\ chars !! k = Some (token (tok node))
          /\ type node = token (tok node)
          /\ (forall j c, i <= j < k -> chars !! j = Some c ->
                c ∉ statementTokens)
          /\ args node = nodeArgs (tok node) k chars
    end.
Proof.
  induction todo as [|c todo IH]; intros i Hdrop; cbn [parseLineFrom].
  - intros k c' Hik Hk. exfalso.
    assert (length (drop i chars) = 0) as Hlen by (rewrite Hdrop; reflexivity).
    rewrite length_drop in Hlen. apply lookup_lt_Some in Hk. lia.
  - assert (chars !! i = Some c) as Hi.
    { rewrite <- (Nat.add_0_r i), <- lookup_drop, Hdrop. reflexivity. }
    assert (drop (S i) chars = todo) as Hrest.
    { replace (S i) with (i + 1) by lia.
      rewrite <- drop_drop, Hdrop. reflexivity. }
    pose proof (find_token c) as Hfind.
    destruct (find (fun t => JsString.eqb (token t) c) tokens) as [t|].
    + cbn beta iota. exists i. simpl. subst c.
      split; [lia|]. split; [exact Hi|]. split; [reflexivity|].
      split; [intros j c' Hj; lia|].
      unfold nodeArgs, JsString.slice, JsString.sliceFrom, JsString.join.
      rewrite Nat.sub_0_r, Nat.add_1_r. simpl.
      destruct (JsString.eqb (token t) ASSIGN) eqn:Ht.
      * apply eqb_token_ASSIGN in Ht. subst t. reflexivity.
      * destruct t; [vm_compute in Ht; discriminate | reflexivity..].
    + specialize (IH (S i) Hrest).
      destruct (parseLineFrom chars (S i) todo) as [node|].
      * destruct IH as (k & Hk & Htok & Htype & Hbefore & Hargs).
        exists k. split; [lia|]. split; [exact Htok|].
        split; [exact Htype|]. split; [|exact Hargs].
        intros j c' Hj Hc'. destruct (decide (j = i)) as [->|Hne].
        -- rewrite Hi in Hc'. injection Hc' as <-. exact Hfind.
        -- apply (Hbefore j c'); [lia | exact Hc'].
      * intros k c' Hk Hc'. destruct (decide (k = i)) as [->|Hne].
        -- rewrite Hi in Hc'. injection Hc' as <-. exact Hfind.
        -- apply (IH k c'); [lia | exact Hc'].
Qed.

Section Dispatcher.
Variable segment : jsstring -> list jsstring.

(** C6, as the code has it. [parseLine] returns a node exactly when some
    grapheme cluster of the line is one of the three statement tokens
    ASSIGN, PRINT and COND, and then for the leftmost such cluster, at
    index [i]: for ASSIGN the arguments are the trimmed text before [i] and
    the trimmed text after [i]; for PRINT and COND they are the clusters
    after [i], as they are.  It returns absent exactly when no cluster of
    the line is a statement token. *)
Theorem parseLine_result line :
  match parseLine segment line with
  | None => forall c, c ∈ segment line -> c ∉ statementTokens
  | Some node =>
      exists i,
        segment line !! i = Some (token (tok node))
        /\ type node = token (tok node)
        /\ (forall j c, j < i -> segment line !! j = Some c ->
              c ∉ statementTokens)
        /\ args node =
           match tok node with
           | AssignToken =>
               [JsString.trim (concat (take i (segment line)));
                JsString.trim (concat (drop (S i) (segment line)))]
           | _ => drop (S i) (segment line)
           end
  end.
Proof.
  unfold parseLine.
  pose proof (parseLineFrom_result (segment line) (segment line) 0 eq_refl)
    as H.
  destruct (parseLineFrom (segment line) 0 (segment line)) as [node|].
  - destruct H as (i & _ & Htok & Htype & Hbefore & Hargs).
    exists i. split; [exact Htok|]. split; [exact Htype|].
    split; [|exact Hargs].
    intros j c Hj. apply Hbefore. lia.
  - intros c Hc. apply list_elem_of_lookup in Hc as [k Hk].
    apply (H k c); [lia | exact Hk].
Qed.

End Dispatcher.

(** C6 as stated fails: a line whose only cluster is ARROW, one of the eight
    symbols, yields no node. *)
Lemma parseLine_arrow_counterexample :
  ~ (forall line,
       (exists c, c ∈ Graphemes.segment line /\ c ∈ SpecWording.symbols) ->
       is_Some (parseLine Graphemes.segment line)).
Proof.
  intros H. destruct (H ARROW) as [node Hnode].
  - exists ARROW. split; vm_compute.
    + left.
    + do 3 right. left.
  - vm_compute in Hnode. discriminate.
Qed.

(** ** The interpreter loop *)

Section InterpreterLoop.
Variable segment : jsstring -> list jsstring.

Lemma interpret_nil_any fuel st : interpret segment fuel [] st = Ok st.
Proof. destruct fuel; reflexivity. Qed.

(** A line that [parseLine] does not recognise and whose first cluster is
    bound to a function is a call. *)
Lemma interpret_call fuel line rest varMap out fnName f :
  JsString.isEmpty (JsString.trim line) = false ->
  parseLine segment (JsString.trim line) = None ->
  head (segment (JsString.trim line)) = Some fnName ->
  ScopedMap.get varMap fnName = Some (Fn f) ->
  interpret segment fuel (line :: rest) (varMap, out) =
  let argsPassed := drop 1 (segment (JsString.trim line)) in
  if (length (argNames f) =? 0) && (0 <? length argsPassed)
  then Throw (TakesNoArgs (Some fnName))
  else
    st' <- nestedInterpret segment fuel (body f)
             (bindArgs (ScopedMap.createChild varMap) (argNames f)
                argsPassed 0, out) ;;
    interpret segment fuel rest (afterCall varMap (fst st'), snd st').
Proof.
  intros Hline Hparse Hhead Hget.
  destruct fuel; simpl; rewrite Hline, Hparse, Hhead; simpl;
    rewrite Hget; reflexivity.
Qed.

Lemma bindArgs_take names : forall scoped argsPassed i,
  bindArgs scoped names (take (i + length names) argsPassed) i
  = bindArgs scoped names argsPassed i.
Proof.
  induction names as [|arg names IH]; intros scoped argsPassed i; simpl.
  - reflexivity.
  - rewrite lookup_take_lt by lia.
    replace (i + S (length names)) with (S i + length names) by lia.
    apply IH.
Qed.

(** Binding parameters through a fresh child scope is binding them in the
    scope the child was created from: the child's own mapping stays empty. *)
Lemma set_createChild varMap key value :
  ScopedMap.set (ScopedMap.createChild varMap) key value
  = ScopedMap.createChild (ScopedMap.set varMap key value).
Proof. reflexivity. Qed.

Lemma bindArgs_createChild names : forall varMap argsPassed i,
  bindArgs (ScopedMap.createChild varMap) names argsPassed i
  = ScopedMap.createChild (bindArgs varMap names argsPassed i).
Proof.
  induction names as [|arg names IH]; intros varMap argsPassed i;
    cbn [bindArgs].
  - reflexivity.
  - rewrite set_createChild. apply IH.
Qed.

(** What the parameter binding leaves in the scope. *)
Lemma bindArgs_get_other names : forall scoped argsPassed i key,
  key ∉ names ->
  ScopedMap.get (bindArgs scoped names argsPassed i) key
  = ScopedMap.get scoped key.
Proof.
  induction names as [|arg names IH]; intros scoped argsPassed i key Hkey;
    cbn [bindArgs].
  - reflexivity.
  - apply not_elem_of_cons in Hkey as [Hne Hkey].
    rewrite IH by exact Hkey.
    apply ScopedMapFacts.get_set_ne. congruence.
Qed.

Lemma bindArgs_get_param names : forall scoped argsPassed i k name,
  NoDup names ->
  names !! k = Some name ->
  ScopedMap.get (bindArgs scoped names argsPassed i) name
  = Some (Str (default [] (argsPassed !! (i + k)))).
Proof.
  induction names as [|arg names IH];
    intros scoped argsPassed i k name Hnodup Hk; [discriminate|].
  apply NoDup_cons in Hnodup as [Hfresh Hnodup]. cbn [bindArgs].
  destruct k as [|k].
  - injection Hk as ->. rewrite bindArgs_get_other by exact Hfresh.
    rewrite Nat.add_0_r. apply ScopedMapFacts.get_set_eq.
  - replace (i + S k) with (S i + k) by lia.
    apply IH; assumption.
Qed.

(** A name listed more than once takes the argument of its last place. *)
Lemma bindArgs_get_last names : forall scoped argsPassed i k name,
  names !! k = Some name ->
  (forall j, k < j -> names !! j <> Some name) ->
  ScopedMap.get (bindArgs scoped names argsPassed i) name
  = Some (Str (default [] (argsPassed !! (i + k)))).
Proof.
  induction names as [|arg names IH];
    intros scoped argsPassed i k name Hk Hlast; [discriminate|].
  cbn [bindArgs]. destruct k as [|k].
  - injection Hk as ->. rewrite bindArgs_get_other.
    + rewrite Nat.add_0_r. apply ScopedMapFacts.get_set_eq.
    + intros Hin. apply list_elem_of_lookup in Hin as [j Hj].
      apply (Hlast (S j)); [lia | exact Hj].
  - replace (i + S k) with (S i + k) by lia.
    apply IH; [exact Hk|].
    intros j Hj. apply (Hlast (S j)). lia.
Qed.

(** C8. A call line whose function has no parameter throws the arity error
    exactly when at least one argument cluster follows the function name,
    and then whatever the fuel; with no argument the call throws nothing of
    its own: the line is the run of the function body in a child scope,
    followed by the rest of the lines. *)
Theorem zero_parameter_call fuel line rest varMap out fnName f :
  JsString.isEmpty (JsString.trim line) = false ->
  parseLine segment (JsString.trim line) = None ->
  head (segment (JsString.trim line)) = Some fnName ->
  ScopedMap.get varMap fnName = Some (Fn f) ->
  argNames f = [] ->
  interpret segment fuel (line :: rest) (varMap, out)
  = match drop 1 (segment (JsString.trim line)) with
    | _ :: _ => Throw (TakesNoArgs (Some fnName))
    | [] =>
        st' <- nestedInterpret segment fuel (body f)
                 (ScopedMap.createChild varMap, out) ;;
        interpret segment fuel rest (afterCall varMap (fst st'), snd st')
    end.
Proof.
  intros Hline Hparse Hhead Hget Hnames.
  rewrite (interpret_call fuel line rest varMap out fnName f)
    by assumption.
  cbv zeta. rewrite Hnames.
  destruct (drop 1 (segment (JsString.trim line))); reflexivity.
Qed.

(** C10. A call line whose function has at least one parameter and that
    supplies more argument clusters than parameters throws nothing of its
    own: the line is the run of the function body in the scope [scoped],
    followed by the rest of the lines.  In [scoped] every parameter reads
    the argument cluster of its own index (of its last index, should a name
    be listed twice), every name that is not a parameter reads as it does
    for the caller, and the clusters beyond the last parameter play no
    part: [scoped] is the scope the same call makes once they are cut off. *)
Theorem surplus_arguments_dropped fuel line rest varMap out fnName f :
  JsString.isEmpty (JsString.trim line) = false ->
  parseLine segment (JsString.trim line) = None ->
  head (segment (JsString.trim line)) = Some fnName ->
  ScopedMap.get varMap fnName = Some (Fn f) ->
  argNames f <> [] ->
  let argsPassed := drop 1 (segment (JsString.trim line)) in
  length (argNames f) < length argsPassed ->
  let scoped :=
    bindArgs (ScopedMap.createChild varMap) (argNames f) argsPassed 0 in
  interpret segment fuel (line :: rest) (varMap, out)
  = (st' <- nestedInterpret segment fuel (body f) (scoped, out) ;;
     interpret segment fuel rest (afterCall varMap (fst st'), snd st'))
  /\ (forall k name,
        argNames f !! k = Some name ->
        (forall j, k < j -> argNames f !! j <> Some name) ->
        exists arg,
          argsPassed !! k = Some arg
          /\ ScopedMap.get scoped name = Some (Str arg))
  /\ (forall key,
        key ∉ argNames f ->
        ScopedMap.get scoped key = ScopedMap.get varMap key)
  /\ scoped
     = bindArgs (ScopedMap.createChild varMap) (argNames f)
         (take (length (argNames f)) argsPassed) 0.
Proof.
  intros Hline Hparse Hhead Hget Hnames argsPassed Hsurplus scoped.
  split; [|split; [|split]].
  - rewrite (interpret_call fuel line rest varMap out fnName f)
      by assumption.
    fold argsPassed. cbv zeta. fold scoped.
    destruct (argNames f) as [|arg names]; [contradiction | reflexivity].
  - intros k name Hk Hlast.
    assert (k < length argsPassed) as Hlt
        by (apply lookup_lt_Some in Hk; lia).
    apply lookup_lt_is_Some in Hlt as [arg Harg].
    exists arg. split; [exact Harg|]. subst scoped argsPassed.
    rewrite (bindArgs_get_last (argNames f) _ _ 0 k name Hk Hlast).
    exact (f_equal (fun o => Some (Str (default [] o))) Harg).
  - intros key Hkey. unfold scoped.
    rewrite bindArgs_get_other by exact Hkey. reflexivity.
  - unfold scoped. symmetry.
    apply (bindArgs_take (argNames f) _ argsPassed 0).
Qed.

End InterpreterLoop.

Lemma zero_parameter_call_witness :
  let f := mkFn [] [PRINT ++ lit "Hi"] in
  JsString.isEmpty (JsString.trim (lit "FX")) = false
  /\ parseLine Graphemes.segment (JsString.trim (lit "FX")) = None
  /\ head (Graphemes.segment (JsString.trim (lit "FX"))) = Some (lit "F")
  /\ ScopedMap.get Samples.zeroParameterEnv (lit "F") = Some (Fn f)
  /\ argNames f = []
  /\ interpret Graphemes.segment 1 [lit "FX"] (Samples.zeroParameterEnv, [])
     = match drop 1 (Graphemes.segment (JsString.trim (lit "FX"))) with
       | _ :: _ => Throw (TakesNoArgs (Some (lit "F")))
       | [] =>
           st' <- nestedInterpret Graphemes.segment 1 (body f)
                    (ScopedMap.createChild Samples.zeroParameterEnv, []) ;;
           interpret Graphemes.segment 1 []
             (afterCall Samples.zeroParameterEnv (fst st'), snd st')
       end.
Proof.
  cbv zeta. repeat (split; [vm_compute; reflexivity|]).
  apply (zero_parameter_call Graphemes.segment 1 (lit "FX") []
           Samples.zeroParameterEnv [] (lit "F")
           (mkFn [] [PRINT ++ lit "Hi"]));
    vm_compute; reflexivity.
Defined.

Lemma surplus_arguments_dropped_witness :
  let f := mkFn [lit "P"] [PRINT ++ lit "P"] in
  let argsPassed := drop 1 (Graphemes.segment (JsString.trim (lit "FXY"))) in
  let scoped :=
    bindArgs (ScopedMap.createChild Samples.oneParameterEnv) (argNames f)
      argsPassed 0 in
  JsString.isEmpty (JsString.trim (lit "FXY")) = false
  /\ parseLine Graphemes.segment (JsString.trim (lit "FXY")) = None
  /\ head (Graphemes.segment (JsString.trim (lit "FXY"))) = Some (lit "F")
  /\ ScopedMap.get Samples.oneParameterEnv (lit "F") = Some (Fn f)
  /\ argNames f <> []
  /\ length (argNames f) < length argsPassed
  /\ interpret Graphemes.segment 1 [lit "FXY"] (Samples.oneParameterEnv, [])
     = (st' <- nestedInterpret Graphemes.segment 1 (body f) (scoped, []) ;;
        interpret Graphemes.segment 1 []
          (afterCall Samples.oneParameterEnv (fst st'), snd st'))
  /\ (forall k name,
        argNames f !! k = Some name ->
        (forall j, k < j -> argNames f !! j <> Some name) ->
        exists arg,
          argsPassed !! k = Some arg
          /\ ScopedMap.get scoped name = Some (Str arg))
  /\ (forall key,
        key ∉ argNames f ->
        ScopedMap.get scoped key
        = ScopedMap.get Samples.oneParameterEnv key)
  /\ scoped
     = bindArgs (ScopedMap.createChild Samples.oneParameterEnv) (argNames f)
         (take (length (argNames f)) argsPassed) 0.
Proof.
  cbv zeta. repeat (split; [vm_compute; (reflexivity || lia || congruence)|]).
  apply (surplus_arguments_dropped Graphemes.segment 1 (lit "FXY") []
           Samples.oneParameterEnv [] (lit "F")
           (mkFn [lit "P"] [PRINT ++ lit "P"]));
    vm_compute; (reflexivity || lia || congruence).
Defined.

(** The call [FXY] of a function of the one parameter [P] that prints [P]:
    [P] reads [X] in the scope the body runs in, and [X] is printed. *)
Example surplus_call_reads_first_argument :
  ScopedMap.get
    (bindArgs (ScopedMap.createChild Samples.oneParameterEnv) [lit "P"]
       (drop 1 (Graphemes.segment (JsString.trim (lit "FXY")))) 0)
    (lit "P")
  = Some (Str (lit "X"))
  /\ Samples.printed
       (interpret Graphemes.segment 1 [lit "FXY"]
          (Samples.oneParameterEnv, []))
     = Some [lit "X"].
Proof. split; vm_compute; reflexivity. Qed.

(** ** Where assignments in a child scope go *)

(** Whatever the key, a [set] issued in the child scope of a call is a
    [set] on the caller's scope, and the caller reads it back once the
    child is gone. *)
Lemma set_in_call_scope_reaches_caller varMap key value :
  afterCall varMap (ScopedMap.set (ScopedMap.createChild varMap) key value)
  = ScopedMap.set varMap key value
  /\ ScopedMap.get (ScopedMap.set varMap key value) key = Some value.
Proof. split; [reflexivity | apply ScopedMapFacts.get_set_eq]. Qed.

(** The same for the scope of a conditional block. *)
Lemma set_in_block_scope_reaches_caller varMap key value :
  afterBlock varMap (ScopedMap.set (ScopedMap.newOver varMap) key value)
  = ScopedMap.set varMap key value.
Proof.
  unfold ScopedMap.newOver. rewrite ScopedMapFacts.set_eq. simpl.
  rewrite orb_true_r. reflexivity.
Qed.

(** Re-assigning inside a call a name that the top-level scope binds changes
    that binding. *)
Example bound_name_in_call_is_mutated :
  Samples.finalBinding (Samples.run 2 Samples.boundNameInCall) (lit "X")
  = Some (Str (lit "new")).
Proof. vm_compute. reflexivity. Qed.

(** C1, on the code. A function of no parameter, or a conditional block,
    assigns the name [N], bound nowhere before: once the call or the block
    has returned, the top-level scope binds [N]. *)
Theorem new_name_in_child_scope_stays :
  Samples.finalBinding (Samples.run 2 Samples.newNameInCall) (lit "N")
  = Some (Str (lit "new"))
  /\ Samples.finalBinding (Samples.run 2 Samples.newNameInBlock) (lit "N")
     = Some (Str (lit "new")).
Proof. split; vm_compute; reflexivity. Qed.

(** C2, on the code. [F], a function of the parameter [P], is called with
    the argument [X]: the body prints [X], and once the call has returned
    the top-level scope binds [P] to [X]. *)
Theorem parameter_binding_stays :
  Samples.printed (Samples.run 2 Samples.oneParameterCall) = Some [lit "X"]
  /\ Samples.finalBinding (Samples.run 2 Samples.oneParameterCall) (lit "P")
     = Some (Str (lit "X")).
Proof. split; vm_compute; reflexivity. Qed.

(** ** Scopes keep their outline

    Running code only ever changes the contents of mappings.  So the scope
    a call or a block returns still has the caller's scope where it was
    put, and [afterCall] and [afterBlock] never fall back on their first
    argument. *)

Lemma shape_set key value this :
  shape (ScopedMap.set this key value) = shape this.
Proof.
  revert this.
  apply (ScopedMap_chain_ind
           (fun this => shape (ScopedMap.set this key value) = shape this)
           (fun l => localShape (ScopedMap.localSet l key value)
                     = localShape l)).
  - intros l Hl. rewrite ScopedMapFacts.set_eq. simpl.
    rewrite orb_true_r. simpl. rewrite Hl. reflexivity.
  - intros l p Hl Hp. rewrite ScopedMapFacts.set_eq. simpl.
    rewrite orb_false_r. destruct (ScopedMap.localHas l key); simpl.
    + rewrite Hl. reflexivity.
    + rewrite Hp. reflexivity.
  - reflexivity.
  - intros s Hs. simpl. rewrite Hs. reflexivity.
Qed.

Lemma shape_bindArgs names : forall scoped argsPassed i,
  shape (bindArgs scoped names argsPassed i) = shape scoped.
Proof.
  induction names as [|arg names IH]; intros scoped argsPassed i; simpl.
  - reflexivity.
  - rewrite IH. apply shape_set.
Qed.

Lemma shape_afterCall varMap varMap0 scoped :
  shape scoped = shape (ScopedMap.createChild varMap) ->
  parent scoped = Some (afterCall varMap0 scoped)
  /\ shape (afterCall varMap0 scoped) = shape varMap.
Proof.
  destruct scoped as [l [p|]]; simpl; [|discriminate].
  intros [= _ Hp]. split; [reflexivity | exact Hp].
Qed.

Lemma shape_afterBlock varMap varMap0 wrapper :
  shape wrapper = shape (ScopedMap.newOver varMap) ->
  local wrapper = LocalScoped (afterBlock varMap0 wrapper)
  /\ shape (afterBlock varMap0 wrapper) = shape varMap.
Proof.
  destruct wrapper as [[m|s] p]; simpl; [discriminate|].
  intros [= Hs _]. split; [reflexivity | exact Hs].
Qed.

Section Outline.
Variable segment : jsstring -> list jsstring.

Lemma interpret_cons fuel line rest st :
  interpret segment fuel (line :: rest) st =
  let trimmed := JsString.trim line in
  if JsString.isEmpty trimmed then interpret segment fuel rest st
  else
    match parseLine segment trimmed with
    | Some node =>
        st' <- evaluate segment (nestedInterpret segment fuel) fuel node st ;;
        interpret segment fuel rest st'
    | None =>
        let '(varMap, out) := st in
        let fnName := head (segment trimmed) in
        match ScopedMap.get varMap (default (lit "unknown") fnName) with
        | Some (Fn f) =>
            let argsPassed := drop 1 (segment trimmed) in
            if (length (argNames f) =? 0) && (0 <? length argsPassed)
            then Throw (TakesNoArgs fnName)
            else
              st' <- nestedInterpret segment fuel (body f)
                       (bindArgs (ScopedMap.createChild varMap) (argNames f)
                          argsPassed 0, out) ;;
              interpret segment fuel rest (afterCall varMap (fst st'), snd st')
        | _ => Throw (UnknownSyntax trimmed)
        end
    end.
Proof. destruct fuel; reflexivity. Qed.

Lemma bind_Ok {A B} (r : Result A) (k : A -> Result B) (b : B) :
  bind r k = Ok b -> exists a, r = Ok a /\ k a = Ok b.
Proof. destruct r as [a| |]; simpl; [eauto | discriminate..]. Qed.

Lemma evaluate_shape nested fuel node :
  KeepsShape nested ->
  forall st st',
    evaluate segment nested fuel node st = Ok st' ->
    shape (fst st') = shape (fst st).
Proof.
  intros Hnested [varMap out] st'. unfold evaluate.
  destruct (tok node).
  - destruct (args node) as [|name [|valueRaw more]];
      try (intros [= <-]; reflexivity).
    destruct (JsString.isEmpty name || JsString.isEmpty valueRaw);
      [intros [= <-]; reflexivity|].
    intros H. apply bind_Ok in H as ([f|] & _ & H).
    + injection H as <-. apply shape_set.
    + apply bind_Ok in H as (resolved & _ & [= <-]). apply shape_set.
  - intros H. apply bind_Ok in H as (line & _ & [= <-]). reflexivity.
  - destruct (JsString.indexOf _ ARROW) as [arrowIndex|]; [|discriminate].
    cbv zeta.
    destruct (JsString.indexOf _ EQUALS) as [eqIndex|]; [|discriminate].
    intros H. apply bind_Ok in H as (lhs & _ & H).
    apply bind_Ok in H as (rhs & _ & H).
    destruct (JsString.eqb lhs rhs); [|injection H as <-; reflexivity].
    apply bind_Ok in H as ([f|] & _ & H); [|injection H as <-; reflexivity].
    destruct (length (argNames f) =? 0); [|injection H as <-; reflexivity].
    apply bind_Ok in H as (st1 & Hrun & [= <-]).
    apply Hnested in Hrun. simpl in Hrun |- *.
    apply (shape_afterBlock varMap varMap). exact Hrun.
Qed.

Lemma loop_shape fuel :
  KeepsShape (nestedInterpret segment fuel) ->
  KeepsShape (interpret segment fuel).
Proof.
  intros Hnested lines. induction lines as [|line rest IH]; intros st st'.
  - rewrite interpret_nil_any. intros [= <-]. reflexivity.
  - rewrite interpret_cons. cbv zeta.
    destruct (JsString.isEmpty (JsString.trim line)); [apply IH|].
    destruct (parseLine segment (JsString.trim line)) as [node|].
    + intros H. apply bind_Ok in H as (st1 & Heval & Hrest).
      apply IH in Hrest. rewrite Hrest.
      eapply evaluate_shape; eassumption.
    + destruct st as [varMap out].
      destruct (ScopedMap.get varMap _) as [[s|f]|]; try discriminate.
      destruct ((length (argNames f) =? 0) && _); [discriminate|].
      intros H. apply bind_Ok in H as (st1 & Hrun & Hrest).
      apply IH in Hrest. rewrite Hrest. simpl.
      apply Hnested in Hrun. simpl in Hrun.
      rewrite shape_bindArgs in Hrun.
      apply (shape_afterCall varMap varMap). exact Hrun.
Qed.

Lemma interpret_shape fuel : KeepsShape (interpret segment fuel).
Proof.
  induction fuel as [|fuel IH]; apply loop_shape; simpl.
  - intros lines st st'. discriminate.
  - exact IH.
Qed.

(** After a call the caller goes on with the scope that was the child's
    parent, and after a block with the scope the block was wrapped around. *)
Lemma nested_run_returns_caller_scope fuel lines varMap varMap0 out scoped out' :
  (interpret segment fuel lines (ScopedMap.createChild varMap, out)
   = Ok (scoped, out') ->
   parent scoped = Some (afterCall varMap0 scoped))
  /\ (interpret segment fuel lines (ScopedMap.newOver varMap, out)
      = Ok (scoped, out') ->
      local scoped = LocalScoped (afterBlock varMap0 scoped)).
Proof.
  split; intros H; apply interpret_shape in H; simpl in H.
  - apply (shape_afterCall varMap varMap0). exact H.
  - apply (shape_afterBlock varMap varMap0). exact H.
Qed.

End Outline.

(** * Further properties of the code *)

(** ** ScopedMap: lookups and updates through a chain *)

Module ScopedMapUse.
Import ScopedMap ScopedMapFacts.

(** X1. On every scope chain [has(key)] answers true exactly when
    [get(key)] returns a value, and false exactly when it returns none. *)
Theorem has_agrees_with_get this key :
  (has this key = true <-> is_Some (get this key))
  /\ (has this key = false <-> get this key = None).
Proof.
  split.
  - apply has_true_get.
  - apply has_false_get.
Qed.

(** X2. Whatever the chain, a value that was [set] under a key is the value
    [get] returns for that key afterwards, and [has] finds the key. *)
Theorem set_then_get this key value :
  get (set this key value) key = Some value
  /\ has (set this key value) key = true.
Proof.
  assert (get (set this key value) key = Some value) as Hget
      by apply get_set_eq.
  split; [exact Hget|].
  apply has_true_get. rewrite Hget. eauto.
Qed.

(** X3. A [set] under one key changes neither what [get] returns nor what
    [has] answers for any other key, wherever in the chain the value went. *)
Theorem set_leaves_other_keys this key value key' :
  key <> key' ->
  get (set this key value) key' = get this key'
  /\ has (set this key value) key' = has this key'.
Proof.
  intros Hne.
  assert (get (set this key value) key' = get this key') as Hget
      by (apply get_set_ne; exact Hne).
  split; [exact Hget|].
  rewrite !has_get, Hget. reflexivity.
Qed.

Lemma set_leaves_other_keys_witness :
  lit "X" <> lit "Y"
  /\ get (set MoreSamples.nested (lit "X") (Str (lit "new"))) (lit "Y")
     = get MoreSamples.nested (lit "Y")
  /\ has (set MoreSamples.nested (lit "X") (Str (lit "new"))) (lit "Y")
     = has MoreSamples.nested (lit "Y").
Proof.
  split; [vm_compute; congruence|].
  apply (set_leaves_other_keys MoreSamples.nested (lit "X")
           (Str (lit "new")) (lit "Y")).
  vm_compute. congruence.
Defined.

End ScopedMapUse.

(** ** The value resolver, used twice *)

Module ResolverUse.
Import ScopedMap ScopedMapFacts Alias Resolver.

(** X4. Resolving is idempotent: what [resolveValue] returns for a name is
    what it returns again for that result. *)
Theorem resolveValue_idempotent fuel name varMap r :
  resolveValue fuel name varMap = Ok r ->
  resolveValue fuel r varMap = Ok r.
Proof.
  intros Hrun. pose proof Hrun as Hagain.
  apply resolveValue_Ok in Hrun as (val & Hloop & Hr).
  apply resolveLoop_chain, chain_stops in Hloop.
  destruct val as [[s|f]|]; subst r; try exact Hagain.
  simpl in Hloop. apply has_false_get in Hloop.
  unfold resolveValue. rewrite Hloop.
  destruct fuel; reflexivity.
Qed.

Lemma resolveValue_idempotent_witness :
  resolveValue 3 (lit "A") Samples.chainEnv = Ok (lit "hello")
  /\ resolveValue 3 (lit "hello") Samples.chainEnv = Ok (lit "hello").
Proof.
  split; [vm_compute; reflexivity|].
  apply (resolveValue_idempotent 3 (lit "A") Samples.chainEnv (lit "hello")).
  vm_compute. reflexivity.
Defined.

(** X5. When [resolveValue] returns something else than the name it was
    given, the name is bound and the result is not: the value is resolved
    to the end. *)
Theorem resolveValue_other_is_unbound fuel name varMap r :
  resolveValue fuel name varMap = Ok r ->
  r <> name ->
  has varMap name = true /\ has varMap r = false.
Proof.
  intros Hrun Hne.
  apply resolveValue_Ok in Hrun as (val & Hloop & Hr).
  apply resolveLoop_chain in Hloop.
  destruct val as [[s|f]|]; subst r; try contradiction.
  split.
  - apply (chain_bound _ _ _ Hloop). eauto.
  - apply (chain_stops _ _ _ Hloop).
Qed.

Lemma resolveValue_other_is_unbound_witness :
  resolveValue 3 (lit "A") Samples.chainEnv = Ok (lit "hello")
  /\ lit "hello" <> lit "A"
  /\ has Samples.chainEnv (lit "A") = true
  /\ has Samples.chainEnv (lit "hello") = false.
Proof.
  split; [vm_compute; reflexivity|]. split; [vm_compute; congruence|].
  apply (resolveValue_other_is_unbound 3 (lit "A") Samples.chainEnv
           (lit "hello")).
  - vm_compute. reflexivity.
  - vm_compute. congruence.
Defined.

End ResolverUse.

(** ** Splitting and joining *)

Lemma splitFrom_nonempty sep s : forall skip acc,
  JsString.splitFrom sep skip acc s <> [].
Proof.
  induction s as [|c s IH]; intros skip acc; cbn [JsString.splitFrom];
    [done|].
  destruct skip; [|apply IH].
  destruct (JsString.startsWith (c :: s) sep); [done | apply IH].
Qed.

Lemma joinWith_cons sep p parts :
  parts <> [] -> joinWith sep (p :: parts) = p ++ sep ++ joinWith sep parts.
Proof. destruct parts; [contradiction | reflexivity]. Qed.

(** A separator that starts at no position of [s] leaves [s] in one piece. *)
Lemma splitFrom_no_match sep s : forall acc,
  (forall pre post, s = pre ++ post -> post <> [] ->
                    JsString.startsWith post sep = false) ->
  JsString.splitFrom sep 0 acc s = [rev acc ++ s].
Proof.
  induction s as [|c s IH]; intros acc Hno; cbn [JsString.splitFrom].
  - rewrite app_nil_r. reflexivity.
  - assert (JsString.startsWith (c :: s) sep = false) as ->
        by (apply (Hno []); [reflexivity | discriminate]).
    rewrite IH.
    + simpl. rewrite <- app_assoc. reflexivity.
    + intros pre post -> Hpost. apply (Hno (c :: pre)); [reflexivity | exact Hpost].
Qed.

Lemma Without_no_match sep s :
  Without sep s ->
  forall pre post, s = pre ++ post -> JsString.startsWith post sep = false.
Proof.
  intros Hwithout pre post ->.
  destruct (JsString.startsWith post sep) eqn:Hstart; [|reflexivity].
  apply startsWith_prefix in Hstart as [rest ->].
  exfalso. apply (Hwithout pre rest). reflexivity.
Qed.

Lemma split_Without sep s : Without sep s -> JsString.split s sep = [s].
Proof.
  intros Hwithout. unfold JsString.split.
  rewrite splitFrom_no_match; [reflexivity|].
  intros pre post Hs _. eapply Without_no_match; eassumption.
Qed.

(** The first piece of a split: the text before the first position at
    which the separator starts. *)
Lemma splitFrom_head sep s : forall acc,
  exists p rest,
    s = p ++ rest
    /\ head (JsString.splitFrom sep 0 acc s) = Some (rev acc ++ p)
    /\ forall pre post, p = pre ++ post -> post <> [] ->
         JsString.startsWith (post ++ rest) sep = false.
Proof.
  induction s as [|c s IH]; intros acc; cbn [JsString.splitFrom].
  - exists [], []. rewrite (app_nil_r (rev acc)). split; [reflexivity|].
    split; [reflexivity|].
    intros pre post Hp Hpost. destruct pre, post; try discriminate.
    contradiction.
  - destruct (JsString.startsWith (c :: s) sep) eqn:Hstart.
    + exists [], (c :: s). rewrite (app_nil_r (rev acc)).
      split; [reflexivity|]. split; [reflexivity|].
      intros pre post Hp Hpost. destruct pre, post; try discriminate.
      contradiction.
    + destruct (IH (c :: acc)) as (p & rest & -> & Hhead & Hno).
      exists (c :: p), rest. split; [reflexivity|]. split.
      * rewrite Hhead. simpl. rewrite <- app_assoc. reflexivity.
      * intros pre post Hp Hpost. destruct pre as [|c' pre].
        -- simpl in Hp. subst post. exact Hstart.
        -- injection Hp as -> ->. apply (Hno pre post); [reflexivity | exact Hpost].
Qed.

(** Joining the pieces of a split with the separator gives the string back. *)
Lemma splitFrom_joinWith sep : sep <> [] ->
  forall s skip acc,
    skip <= length sep ->
    take skip s = drop (length sep - skip) sep ->
    joinWith sep (JsString.splitFrom sep skip acc s) = rev acc ++ drop skip s.
Proof.
  intros Hsep. induction s as [|c s IH]; intros skip acc Hskip Htake.
  - simpl. rewrite drop_nil, app_nil_r. reflexivity.
  - cbn [JsString.splitFrom]. destruct skip as [|k].
    + destruct (JsString.startsWith (c :: s) sep) eqn:Hstart.
      * rewrite joinWith_cons by apply splitFrom_nonempty.
        apply startsWith_prefix in Hstart as [t Ht].
        destruct sep as [|c' sep']; [contradiction|].
        injection Ht as <- ->.
        replace (length (c :: sep') - 1) with (length sep')
          by (simpl; lia).
        rewrite IH.
        -- rewrite drop_app_length. reflexivity.
        -- simpl. lia.
        -- rewrite take_app_length.
           replace (length (c :: sep') - length sep') with 1
             by (simpl; lia).
           reflexivity.
      * rewrite IH.
        -- simpl. rewrite <- app_assoc. reflexivity.
        -- lia.
        -- rewrite Nat.sub_0_r, drop_all. reflexivity.
    + rewrite IH.
      * reflexivity.
      * lia.
      * assert (length sep - S k < length sep) as Hlt by lia.
        apply lookup_lt_is_Some in Hlt as [x Hx].
        rewrite (drop_S _ _ _ Hx) in Htake.
        replace (S (length sep - S k)) with (length sep - k) in Htake by lia.
        simpl in Htake. congruence.
Qed.

(** A code unit that is not in [s] does not occur in it as a separator. *)
Lemma Without_unit (c : JsString.codeunit) (s : jsstring) :
  c ∉ s -> Without [c] s.
Proof.
  intros Hc pre post ->. apply Hc.
  rewrite !elem_of_app. right. left. left.
Qed.

(** [s.split(sep).join(sep)] is [s]. *)
Lemma split_then_joinWith sep s :
  sep <> [] -> joinWith sep (JsString.split s sep) = s.
Proof.
  intros Hsep. unfold JsString.split.
  rewrite (splitFrom_joinWith sep Hsep s 0 []).
  - reflexivity.
  - lia.
  - rewrite Nat.sub_0_r, drop_all. reflexivity.
Qed.

(** ** Literals and function literals *)

Section Literals.
Variable segment : jsstring -> list jsstring.

(** Without the CONCAT symbol there is one part, the text itself. *)
Lemma parseConcat_one_part fuel raw varMap :
  Without CONCAT raw ->
  parseConcat segment fuel raw varMap
  = (piece <- parseConcatPart segment fuel varMap raw ;; Ok piece).
Proof.
  intros Hwithout. unfold parseConcat.
  rewrite split_Without by exact Hwithout. cbn [mapR].
  destruct (parseConcatPart segment fuel varMap raw) as [piece| |];
    simpl; [|reflexivity..].
  unfold JsString.join. simpl. rewrite app_nil_r. reflexivity.
Qed.

(** X6. A text without the CONCAT symbol that is not a single grapheme
    cluster once trimmed is a literal: [parseConcat] returns it unchanged,
    white space included, whatever the scope and the fuel. *)
Theorem parseConcat_literal fuel raw varMap :
  Without CONCAT raw ->
  length (segment (JsString.trim raw)) <> 1 ->
  parseConcat segment fuel raw varMap = Ok raw.
Proof.
  intros Hwithout Hlen.
  rewrite parseConcat_one_part by exact Hwithout.
  unfold parseConcatPart.
  destruct (segment (JsString.trim raw)) as [|c [|c' chars]];
    simpl in Hlen |- *; try contradiction; reflexivity.
Qed.

(** X7. A function value can be written back: when the clusters of [raw]
    put together are [raw], the text [createFn] accepted is its first
    cluster (nothing when [raw] opens with the arrow cluster), the
    parameter names, the arrow, and the body lines joined by STMT_SEP. *)
Theorem createFn_written_back raw f :
  concat (segment raw) = raw ->
  createFn segment raw = Ok (Some f) ->
  exists lead,
    (lead = [] \/ head (segment raw) = Some lead)
    /\ raw = lead ++ concat (argNames f) ++ ARROW
               ++ joinWith STMT_SEP (body f).
Proof.
  intros Hjoin. unfold createFn.
  destruct (JsString.startsWith raw FN_MARK || JsString.startsWith raw ARROW);
    [|discriminate].
  destruct (JsString.indexOf (segment raw) ARROW) as [i|] eqn:Hidx;
    [|discriminate].
  intros [= <-]. cbn [argNames body].
  apply indexOf_Some in Hidx as [Hi _].
  unfold JsString.join, JsString.sliceFrom, JsString.slice.
  rewrite split_then_joinWith by done.
  replace (i + 1) with (S i) by lia.
  assert (raw = concat (take i (segment raw)) ++ ARROW
                ++ concat (drop (S i) (segment raw))) as Hraw.
  { rewrite <- Hjoin at 1.
    rewrite <- (take_drop_middle _ _ _ Hi) at 1.
    rewrite concat_app. simpl. reflexivity. }
  destruct i as [|i].
  - exists []. split; [left; reflexivity|]. exact Hraw.
  - destruct (segment raw) as [|c chars] eqn:Hchars; [discriminate|].
    exists c. split; [right; reflexivity|].
    rewrite Hraw at 1. simpl. rewrite Nat.sub_0_r, drop_0.
    rewrite <- !app_assoc. reflexivity.
Qed.

End Literals.

Lemma parseConcat_literal_witness :
  Without CONCAT (lit " Hi there ")
  /\ length (Graphemes.segment (JsString.trim (lit " Hi there "))) <> 1
  /\ parseConcat Graphemes.segment 0 (lit " Hi there ") Samples.chainEnv
     = Ok (lit " Hi there ").
Proof.
  assert (Without CONCAT (lit " Hi there ")) as Hwithout.
  { apply Without_unit. apply (bool_decide_unpack _). vm_compute. exact I. }
  split; [exact Hwithout|]. split; [vm_compute; lia|].
  apply (parseConcat_literal Graphemes.segment 0 (lit " Hi there ")
           Samples.chainEnv).
  - exact Hwithout.
  - vm_compute. lia.
Defined.

Lemma createFn_written_back_witness :
  let raw := FN_MARK ++ lit "P" ++ ARROW ++ PRINT ++ lit "P" ++ STMT_SEP
               ++ PRINT ++ lit "Q" in
  let f := mkFn [lit "P"] [PRINT ++ lit "P"; PRINT ++ lit "Q"] in
  concat (Graphemes.segment raw) = raw
  /\ createFn Graphemes.segment raw = Ok (Some f)
  /\ exists lead,
       (lead = [] \/ head (Graphemes.segment raw) = Some lead)
       /\ raw = lead ++ concat (argNames f) ++ ARROW
                  ++ joinWith STMT_SEP (body f).
Proof.
  cbv zeta. split; [vm_compute; reflexivity|].
  split; [vm_compute; reflexivity|].
  apply (createFn_written_back Graphemes.segment
           (FN_MARK ++ lit "P" ++ ARROW ++ PRINT ++ lit "P" ++ STMT_SEP
              ++ PRINT ++ lit "Q")
           (mkFn [lit "P"] [PRINT ++ lit "P"; PRINT ++ lit "Q"]));
    vm_compute; reflexivity.
Defined.

(** ** Loading a program *)

Lemma startsWith_nil (s : jsstring) : JsString.startsWith s [] = true.
Proof. destruct s; reflexivity. Qed.

Lemma startsWith_unit (c a : JsString.codeunit) (s : jsstring) :
  JsString.startsWith (a :: s) [c] = (c =? a)%N.
Proof. simpl. rewrite startsWith_nil. apply andb_true_r. Qed.

Lemma elem_of_rev (c : JsString.codeunit) (l : jsstring) :
  c ∈ rev l <-> c ∈ l.
Proof. rewrite !list_elem_of_In. symmetry. apply in_rev. Qed.

(** The pieces of a split on a single code unit do not hold that unit. *)
Lemma splitFrom_unit_pieces (c : JsString.codeunit) (s : jsstring) :
  forall acc piece,
    c ∉ acc ->
    piece ∈ JsString.splitFrom [c] 0 acc s ->
    c ∉ piece.
Proof.
  induction s as [|a s IH]; intros acc piece Hacc; cbn [JsString.splitFrom].
  - intros Hpiece. apply list_elem_of_singleton in Hpiece as ->.
    rewrite elem_of_rev. exact Hacc.
  - rewrite startsWith_unit. destruct (N.eqb_spec c a) as [->|Hne].
    + simpl. intros Hpiece. apply elem_of_cons in Hpiece as [->|Hpiece].
      * rewrite elem_of_rev. exact Hacc.
      * eapply IH; [|exact Hpiece]. apply not_elem_of_nil.
    + apply IH. rewrite not_elem_of_cons. split; assumption.
Qed.

(** A split on a single code unit undoes a join on it. *)
Lemma splitFrom_unit_app (c : JsString.codeunit) (l t : jsstring) :
  forall acc,
    c ∉ l ->
    JsString.splitFrom [c] 0 acc (l ++ c :: t)
    = (rev acc ++ l) :: JsString.splitFrom [c] 0 [] t.
Proof.
  induction l as [|a l IH]; intros acc Hl; cbn [JsString.splitFrom app].
  - rewrite startsWith_unit, N.eqb_refl, app_nil_r. reflexivity.
  - apply not_elem_of_cons in Hl as [Hne Hl].
    rewrite startsWith_unit.
    destruct (N.eqb_spec c a) as [->|_]; [contradiction|].
    rewrite IH by exact Hl. simpl. rewrite <- app_assoc. reflexivity.
Qed.

Lemma split_unit_joinWith (c : JsString.codeunit) (lines : list jsstring) :
  lines <> [] ->
  Forall (fun l => c ∉ l) lines ->
  JsString.split (joinWith [c] lines) [c] = lines.
Proof.
  unfold JsString.split. induction lines as [|l lines IH]; [done|].
  intros _ Hlines. apply Forall_cons in Hlines as [Hl Hlines].
  destruct lines as [|l' lines].
  - simpl. apply split_Without, Without_unit. exact Hl.
  - rewrite joinWith_cons by done. cbn [app].
    rewrite splitFrom_unit_app by exact Hl.
    rewrite IH by (done || exact Hlines). reflexivity.
Qed.

Lemma stripComment_Without (l : jsstring) :
  Without commentMarker (stripComment l) /\ exists rest, l = stripComment l ++ rest.
Proof.
  unfold stripComment, JsString.split.
  destruct (splitFrom_head commentMarker l []) as (p & rest & Hl & Hhead & Hno).
  rewrite Hhead. simpl. split; [|exists rest; exact Hl].
  intros pre post Hp.
  assert (JsString.startsWith ((commentMarker ++ post) ++ rest) commentMarker
          = false) as Hfalse by (apply (Hno pre); [exact Hp | done]).
  assert (JsString.startsWith ((commentMarker ++ post) ++ rest) commentMarker
          = true) as Htrue.
  { apply startsWith_prefix. exists (post ++ rest).
    rewrite <- app_assoc. reflexivity. }
  congruence.
Qed.

Lemma stripComment_clean (l : jsstring) :
  Without commentMarker l -> stripComment l = l.
Proof.
  intros Hl. unfold stripComment. rewrite split_Without by exact Hl.
  reflexivity.
Qed.

(** X8. Every line [loadProgram] hands to the interpreter is non-blank, and
    holds neither a line feed nor the comment marker: a comment is cut off
    from its marker on. *)
Theorem loadProgram_lines source line :
  line ∈ loadProgram source ->
  JsString.trim line <> []
  /\ Without commentMarker line
  /\ Without lineFeed line.
Proof.
  unfold loadProgram. intros Hline.
  apply list_elem_of_filter in Hline as [Hblank Hline].
  apply list_elem_of_In, in_map_iff in Hline as (l & <- & Hl).
  apply list_elem_of_In in Hl.
  split; [|split].
  - destruct (JsString.trim (stripComment l)); [discriminate | done].
  - apply stripComment_Without.
  - destruct (stripComment_Without l) as [_ [rest Hrest]].
    apply Without_unit. intros Hin.
    apply (splitFrom_unit_pieces 10%N source [] l);
      [apply not_elem_of_nil | exact Hl |].
    rewrite Hrest, elem_of_app. left. exact Hin.
Qed.

(** X9. Lines that are non-blank and hold neither a line feed nor the
    comment marker, joined by line feeds, load as themselves. *)
Theorem loadProgram_clean_lines lines :
  lines <> [] ->
  Forall (fun l => JsString.trim l <> []
                   /\ Without commentMarker l
                   /\ 10%N ∉ l) lines ->
  loadProgram (joinWith lineFeed lines) = lines.
Proof.
  intros Hne Hlines. unfold loadProgram, lineFeed.
  rewrite split_unit_joinWith;
    [|exact Hne |
     eapply Forall_impl; [exact Hlines | intros l (_ & _ & H); exact H]].
  clear Hne. induction Hlines as [|l lines (Hblank & Hmarker & _) _ IH].
  - reflexivity.
  - cbn [map]. rewrite stripComment_clean by exact Hmarker.
    rewrite filter_cons_True.
    + rewrite IH. reflexivity.
    + destruct (JsString.trim l); [contradiction | reflexivity].
Qed.

Lemma Without_missing_unit (c : JsString.codeunit) (sep s : jsstring) :
  c ∈ sep -> c ∉ s -> Without sep s.
Proof.
  intros Hsep Hs pre post ->. apply Hs.
  rewrite !elem_of_app. right. left. exact Hsep.
Qed.

Lemma loadProgram_lines_witness :
  let source := lit "a // b" ++ lineFeed ++ lit "  " ++ lineFeed ++ lit "c" in
  lit "a " ∈ loadProgram source
  /\ JsString.trim (lit "a ") <> []
  /\ Without commentMarker (lit "a ")
  /\ Without lineFeed (lit "a ").
Proof.
  cbv zeta.
  assert (lit "a " ∈ loadProgram
            (lit "a // b" ++ lineFeed ++ lit "  " ++ lineFeed ++ lit "c"))
    as Hin by (apply (bool_decide_unpack _); vm_compute; exact I).
  split; [exact Hin|].
  apply (loadProgram_lines
           (lit "a // b" ++ lineFeed ++ lit "  " ++ lineFeed ++ lit "c")
           (lit "a ")).
  exact Hin.
Defined.

Lemma loadProgram_clean_lines_witness :
  let lines := [lit "X" ++ ASSIGN ++ lit "Hi"; PRINT ++ lit "X"] in
  lines <> []
  /\ Forall (fun l => JsString.trim l <> []
                      /\ Without commentMarker l
                      /\ 10%N ∉ l) lines
  /\ loadProgram (joinWith lineFeed lines) = lines.
Proof.
  cbv zeta.
  assert (Forall (fun l => JsString.trim l <> []
                           /\ Without commentMarker l
                           /\ 10%N ∉ l)
            [lit "X" ++ ASSIGN ++ lit "Hi"; PRINT ++ lit "X"]) as Hclean.
  { repeat apply Forall_cons_2; [| |apply Forall_nil_2];
      (split; [vm_compute; congruence|]);
      (split; [apply (Without_missing_unit 47%N)|]);
      apply (bool_decide_unpack _); vm_compute; exact I. }
  split; [done|]. split; [exact Hclean|].
  apply (loadProgram_clean_lines
           [lit "X" ++ ASSIGN ++ lit "Hi"; PRINT ++ lit "X"]);
    [done | exact Hclean].
Defined.

(** ** Running lines in sequence *)

Lemma bind_assoc {A B C} (r : Result A) (k : A -> Result B)
  (k' : B -> Result C) :
  bind (bind r k) k' = bind r (fun a => bind (k a) k').
Proof. destruct r; reflexivity. Qed.

Lemma bind_ext {A B} (r : Result A) (k k' : A -> Result B) :
  (forall a, k a = k' a) -> bind r k = bind r k'.
Proof. intros H. destruct r; simpl; [apply H | reflexivity..]. Qed.

Section Running.
Variable segment : jsstring -> list jsstring.

(** X10. Running a program is running its lines in order: the run of
    [lines1 ++ lines2] is the run of [lines1] followed, from the state it
    left, by the run of [lines2]; if the first part throws, so does the
    whole and nothing of the second part is run. *)
Theorem interpret_in_sequence fuel lines1 lines2 st :
  interpret segment fuel (lines1 ++ lines2) st
  = (st' <- interpret segment fuel lines1 st ;;
     interpret segment fuel lines2 st')
  /\ (forall e, interpret segment fuel lines1 st = Throw e ->
                interpret segment fuel (lines1 ++ lines2) st = Throw e).
Proof.
  assert (forall st0,
            interpret segment fuel (lines1 ++ lines2) st0
            = (st' <- interpret segment fuel lines1 st0 ;;
               interpret segment fuel lines2 st')) as Hseq.
  { induction lines1 as [|line rest IH]; intros st0.
    - rewrite interpret_nil_any. reflexivity.
    - cbn [app]. rewrite !interpret_cons. cbv zeta.
      destruct (JsString.isEmpty (JsString.trim line)); [apply IH|].
      destruct (parseLine segment (JsString.trim line)) as [node|].
      + rewrite bind_assoc. apply bind_ext. exact IH.
      + destruct st0 as [varMap out].
        destruct (ScopedMap.get varMap _) as [[s|f]|]; try reflexivity.
        destruct ((length (argNames f) =? 0) && _); [reflexivity|].
        rewrite bind_assoc. apply bind_ext. intros st1. apply IH. }
  split; [apply Hseq|].
  intros e He. rewrite Hseq, He. reflexivity.
Qed.

(** X11. Blank lines do not count: dropping the lines that are empty once
    trimmed, as the loader does, changes nothing to a run. *)
Theorem interpret_skips_blank_lines fuel lines st :
  interpret segment fuel
    (filter (fun line => JsString.isEmpty (JsString.trim line) = false) lines)
    st
  = interpret segment fuel lines st.
Proof.
  revert st. induction lines as [|line rest IH]; intros st; [reflexivity|].
  rewrite (interpret_cons segment fuel line rest). cbv zeta.
  destruct (JsString.isEmpty (JsString.trim line)) eqn:Hblank.
  - rewrite filter_cons_False by (rewrite Hblank; discriminate). apply IH.
  - rewrite filter_cons_True by exact Hblank.
    rewrite interpret_cons. cbv zeta. rewrite Hblank.
    destruct (parseLine segment (JsString.trim line)) as [node|].
    + apply bind_ext. exact IH.
    + destruct st as [varMap out].
      destruct (ScopedMap.get varMap _) as [[s|f]|]; try reflexivity.
      destruct ((length (argNames f) =? 0) && _); [reflexivity|].
      apply bind_ext. intros st1. apply IH.
Qed.

Lemma evaluate_output nested fuel node :
  KeepsOutput nested ->
  forall st st',
    evaluate segment nested fuel node st = Ok st' ->
    exists more, snd st' = snd st ++ more.
Proof.
  intros Hnested [varMap out] st'. unfold evaluate.
  assert (exists more : list jsstring, out = out ++ more) as Hsame
      by (exists []; rewrite app_nil_r; reflexivity).
  destruct (tok node).
  - destruct (args node) as [|name [|valueRaw more]];
      try (intros [= <-]; exact Hsame).
    destruct (JsString.isEmpty name || JsString.isEmpty valueRaw);
      [intros [= <-]; exact Hsame|].
    intros H. apply bind_Ok in H as ([f|] & _ & H).
    + injection H as <-. exact Hsame.
    + apply bind_Ok in H as (resolved & _ & [= <-]). exact Hsame.
  - intros H. apply bind_Ok in H as (line & _ & [= <-]).
    exists [line]. reflexivity.
  - destruct (JsString.indexOf _ ARROW) as [arrowIndex|]; [|discriminate].
    cbv zeta.
    destruct (JsString.indexOf _ EQUALS) as [eqIndex|]; [|discriminate].
    intros H. apply bind_Ok in H as (lhs & _ & H).
    apply bind_Ok in H as (rhs & _ & H).
    destruct (JsString.eqb lhs rhs); [|injection H as <-; exact Hsame].
    apply bind_Ok in H as ([f|] & _ & H); [|injection H as <-; exact Hsame].
    destruct (length (argNames f) =? 0); [|injection H as <-; exact Hsame].
    apply bind_Ok in H as (st1 & Hrun & [= <-]).
    apply Hnested in Hrun. exact Hrun.
Qed.

Lemma loop_output fuel :
  KeepsOutput (nestedInterpret segment fuel) ->
  KeepsOutput (interpret segment fuel).
Proof.
  intros Hnested lines. induction lines as [|line rest IH]; intros st st'.
  - rewrite interpret_nil_any. intros [= <-]. exists [].
    rewrite app_nil_r. reflexivity.
  - rewrite interpret_cons. cbv zeta.
    destruct (JsString.isEmpty (JsString.trim line)); [apply IH|].
    destruct (parseLine segment (JsString.trim line)) as [node|].
    + intros H. apply bind_Ok in H as (st1 & Heval & Hrest).
      apply IH in Hrest as [more2 Hrest].
      apply (evaluate_output _ _ _ Hnested) in Heval as [more1 Heval].
      exists (more1 ++ more2). rewrite Hrest, Heval, app_assoc. reflexivity.
    + destruct st as [varMap out].
      destruct (ScopedMap.get varMap _) as [[s|f]|]; try discriminate.
      destruct ((length (argNames f) =? 0) && _); [discriminate|].
      intros H. apply bind_Ok in H as (st1 & Hrun & Hrest).
      apply IH in Hrest as [more2 Hrest]. simpl in Hrest.
      apply Hnested in Hrun as [more1 Hrun]. simpl in Hrun.
      exists (more1 ++ more2). rewrite Hrest, Hrun, app_assoc. reflexivity.
Qed.

(** X12. Printing is never undone: whatever a run does, the console it
    ends with is the console it started from with lines added at the end. *)
Theorem interpret_output_grows fuel lines varMap out varMap' out' :
  interpret segment fuel lines (varMap, out) = Ok (varMap', out') ->
  exists more, out' = out ++ more.
Proof.
  assert (KeepsOutput (interpret segment fuel)) as Hkeeps.
  { induction fuel as [|fuel IH]; apply loop_output; simpl.
    - intros lines0 st st'. discriminate.
    - exact IH. }
  intros Hrun. apply Hkeeps in Hrun. exact Hrun.
Qed.

(** X13. A run only changes the contents of mappings: the scope it ends
    with has the outline of the scope it started from.  Started from a
    top-level scope, it ends with a top-level scope. *)
Theorem interpret_keeps_outline fuel lines varMap out varMap' out' :
  interpret segment fuel lines (varMap, out) = Ok (varMap', out') ->
  shape varMap' = shape varMap
  /\ (parent varMap = None -> parent varMap' = None)
  /\ (forall m, varMap = mkScopedMap (LocalMap m) None ->
        exists m', varMap' = mkScopedMap (LocalMap m') None).
Proof.
  intros Hrun. apply interpret_shape in Hrun. simpl in Hrun.
  split; [exact Hrun|]. split.
  - destruct varMap as [l [p|]], varMap' as [l' [p'|]];
      simpl in *; congruence.
  - intros m ->. destruct varMap' as [[m'|s'] [p'|]]; try discriminate.
    exists m'. reflexivity.
Qed.

(** X14. A line that holds no statement token and whose first cluster is
    not bound to a function stops the run with the unknown-syntax error,
    which carries the trimmed line; the lines after it are not run. *)
Theorem unknown_line_throws fuel line rest varMap out :
  JsString.isEmpty (JsString.trim line) = false ->
  parseLine segment (JsString.trim line) = None ->
  (forall f,
     ScopedMap.get varMap
       (default (lit "unknown") (head (segment (JsString.trim line))))
     <> Some (Fn f)) ->
  interpret segment fuel (line :: rest) (varMap, out)
  = Throw (UnknownSyntax (JsString.trim line)).
Proof.
  intros Hblank Hparse Hfn.
  rewrite interpret_cons. cbv zeta. rewrite Hblank, Hparse.
  destruct (ScopedMap.get varMap _) as [[s|f]|] eqn:Hget;
    try reflexivity.
  exfalso. apply (Hfn f). reflexivity.
Qed.

End Running.

Lemma interpret_output_grows_witness :
  interpret Graphemes.segment 1 [PRINT ++ lit "X"] (ScopedMap.new, [lit "a"])
  = Ok (ScopedMap.new, [lit "a"; lit "X"])
  /\ exists more, [lit "a"; lit "X"] = [lit "a"] ++ more.
Proof.
  split; [vm_compute; reflexivity|].
  apply (interpret_output_grows Graphemes.segment 1 [PRINT ++ lit "X"]
           ScopedMap.new [lit "a"] ScopedMap.new [lit "a"; lit "X"]).
  vm_compute. reflexivity.
Defined.

Lemma interpret_keeps_outline_witness :
  let varMap' := Samples.root [(lit "X", Str (lit "Hi"))] in
  interpret Graphemes.segment 1 [lit "X" ++ ASSIGN ++ lit "Hi"]
    (ScopedMap.new, [])
  = Ok (varMap', [])
  /\ shape varMap' = shape ScopedMap.new
  /\ (parent ScopedMap.new = None -> parent varMap' = None)
  /\ (forall m, ScopedMap.new = mkScopedMap (LocalMap m) None ->
        exists m', varMap' = mkScopedMap (LocalMap m') None).
Proof.
  cbv zeta. split; [vm_compute; reflexivity|].
  apply (interpret_keeps_outline Graphemes.segment 1
           [lit "X" ++ ASSIGN ++ lit "Hi"] ScopedMap.new []
           (Samples.root [(lit "X", Str (lit "Hi"))]) []).
  vm_compute. reflexivity.
Defined.

Lemma unknown_line_throws_witness :
  JsString.isEmpty (JsString.trim (lit " Q ")) = false
  /\ parseLine Graphemes.segment (JsString.trim (lit " Q ")) = None
  /\ (forall f,
        ScopedMap.get ScopedMap.new
          (default (lit "unknown")
             (head (Graphemes.segment (JsString.trim (lit " Q ")))))
        <> Some (Fn f))
  /\ interpret Graphemes.segment 0 [lit " Q "; PRINT ++ lit "X"]
       (ScopedMap.new, [])
     = Throw (UnknownSyntax (JsString.trim (lit " Q "))).
Proof.
  assert (forall f,
            ScopedMap.get ScopedMap.new
              (default (lit "unknown")
                 (head (Graphemes.segment (JsString.trim (lit " Q ")))))
            <> Some (Fn f)) as Hunbound
      by (intros f H; vm_compute in H; discriminate H).
  split; [vm_compute; reflexivity|]. split; [vm_compute; reflexivity|].
  split; [exact Hunbound|].
  apply (unknown_line_throws Graphemes.segment 0 (lit " Q ")
           [PRINT ++ lit "X"] ScopedMap.new []).
  - vm_compute. reflexivity.
  - vm_compute. reflexivity.
  - exact Hunbound.
Defined.

(** ** Parameters and assignments *)

(** X15. With parameter names that are all different, the scope a function
    body runs in gives for the parameter of index [k] the argument of index
    [k], or the empty text when the call supplied fewer arguments; every
    name that is not a parameter reads as it did before the call. *)
Theorem parameters_read_back names argsPassed scoped :
  NoDup names ->
  (forall k name,
     names !! k = Some name ->
     ScopedMap.get (bindArgs scoped names argsPassed 0) name
     = Some (Str (default [] (argsPassed !! k))))
  /\ (forall key,
        key ∉ names ->
        ScopedMap.get (bindArgs scoped names argsPassed 0) key
        = ScopedMap.get scoped key).
Proof.
  intros Hnodup. split.
  - intros k name Hk.
    rewrite (bindArgs_get_param names scoped argsPassed 0 k name Hnodup Hk).
    reflexivity.
  - intros key Hkey. apply bindArgs_get_other. exact Hkey.
Qed.

Lemma parameters_read_back_witness :
  let names := [lit "P"; lit "Q"] in
  let scoped :=
    bindArgs (ScopedMap.createChild Samples.zeroParameterEnv) names
      [lit "X"] 0 in
  NoDup names
  /\ (forall k name,
        names !! k = Some name ->
        ScopedMap.get scoped name
        = Some (Str (default [] ([lit "X"] !! k))))
  /\ (forall key,
        key ∉ names ->
        ScopedMap.get scoped key
        = ScopedMap.get (ScopedMap.createChild Samples.zeroParameterEnv) key).
Proof.
  cbv zeta.
  assert (NoDup [lit "P"; lit "Q"]) as Hnodup
      by (apply (bool_decide_unpack _); vm_compute; exact I).
  split; [exact Hnodup|].
  apply (parameters_read_back [lit "P"; lit "Q"] [lit "X"]
           (ScopedMap.createChild Samples.zeroParameterEnv)).
  exact Hnodup.
Defined.

Section Statements.
Variable segment : jsstring -> list jsstring.

(** X16. An assignment that returns leaves the console and every other
    name as they were.  With an empty name or value it changes nothing;
    otherwise the name reads back the function value built from the text,
    when the text is a function literal, and else the text [parseConcat]
    made of it. *)
Theorem assign_effect nested fuel name valueRaw varMap out st' :
  evaluate segment nested fuel
    (mkNode ASSIGN AssignToken [name; valueRaw]) (varMap, out) = Ok st' ->
  snd st' = out
  /\ (forall key, key <> name ->
        ScopedMap.get (fst st') key = ScopedMap.get varMap key)
  /\ (name = [] \/ valueRaw = [] -> fst st' = varMap)
  /\ (name <> [] -> valueRaw <> [] ->
      (exists f, createFn segment valueRaw = Ok (Some f)
                 /\ ScopedMap.get (fst st') name = Some (Fn f))
      \/ (exists resolved,
            createFn segment valueRaw = Ok None
            /\ parseConcat segment fuel valueRaw varMap = Ok resolved
            /\ ScopedMap.get (fst st') name = Some (Str resolved))).
Proof.
  unfold evaluate. cbn [tok args].
  destruct name as [|c name]; [|destruct valueRaw as [|c' valueRaw]];
    cbn [JsString.isEmpty orb].
  - intros [= <-]. cbn [fst snd].
    split; [reflexivity|]. split; [reflexivity|]. split; [reflexivity|].
    intros H. contradiction.
  - intros [= <-]. cbn [fst snd].
    split; [reflexivity|]. split; [reflexivity|]. split; [reflexivity|].
    intros _ H. contradiction.
  - intros H. apply bind_Ok in H as ([f|] & Hfn & H).
    + injection H as <-. cbn [fst snd]. split; [reflexivity|]. split.
      * intros key Hkey. apply ScopedMapFacts.get_set_ne. congruence.
      * split; [intros [?|?]; discriminate|].
        intros _ _. left. exists f. split; [exact Hfn|].
        apply ScopedMapFacts.get_set_eq.
    + apply bind_Ok in H as (resolved & Hconcat & [= <-]). cbn [fst snd].
      split; [reflexivity|]. split.
      * intros key Hkey. apply ScopedMapFacts.get_set_ne. congruence.
      * split; [intros [?|?]; discriminate|].
        intros _ _. right. exists resolved.
        split; [exact Hfn|]. split; [exact Hconcat|].
        apply ScopedMapFacts.get_set_eq.
Qed.




End Statements.

(** Closed side conditions of the examples below. *)
Ltac evaluated :=
  first [ vm_compute; reflexivity
        | vm_compute; congruence
        | apply Without_unit; apply (bool_decide_unpack _); vm_compute;
          exact I
        | intros H; apply beginsWithMarker_orb in H; vm_compute in H;
          discriminate H ].

Lemma assign_effect_witness :
  let st' : State := (Samples.root [(lit "X", Str (lit "Hi"))], []) in
  evaluate Graphemes.segment (interpret Graphemes.segment 0) 0
    (mkNode ASSIGN AssignToken [lit "X"; lit "Hi"]) (ScopedMap.new, [])
  = Ok st'
  /\ snd st' = []
  /\ (forall key, key <> lit "X" ->
        ScopedMap.get (fst st') key = ScopedMap.get ScopedMap.new key)
  /\ (lit "X" = [] \/ lit "Hi" = [] -> fst st' = ScopedMap.new)
  /\ (lit "X" <> [] -> lit "Hi" <> [] ->
      (exists f, createFn Graphemes.segment (lit "Hi") = Ok (Some f)
                 /\ ScopedMap.get (fst st') (lit "X") = Some (Fn f))
      \/ (exists resolved,
            createFn Graphemes.segment (lit "Hi") = Ok None
            /\ parseConcat Graphemes.segment 0 (lit "Hi") ScopedMap.new
               = Ok resolved
            /\ ScopedMap.get (fst st') (lit "X") = Some (Str resolved))).
Proof.
  cbv zeta. split; [evaluated|].
  apply (assign_effect Graphemes.segment (interpret Graphemes.segment 0) 0
           (lit "X") (lit "Hi") ScopedMap.new []
           (Samples.root [(lit "X", Str (lit "Hi"))], [])).
  evaluated.
Defined.



(** ** Aliases are transparent *)

(** X19. An alias resolves to what its target resolves to: when [a] is
    bound to the text [b], [b] is bound, and resolving [b] gives a text [r]
    other than [b] itself, resolving [a] gives [r] too, with one more
    iteration of the loop. *)
Theorem alias_resolves_like_target fuel a b r varMap :
  ScopedMap.get varMap a = Some (Str b) ->
  ScopedMap.has varMap b = true ->
  resolveValue fuel b varMap = Ok r ->
  r <> b ->
  resolveValue (S fuel) a varMap = Ok r.
Proof.
  intros Ha Hb Hrun Hne.
  apply Resolver.resolveValue_Ok in Hrun as (val & Hloop & Hr).
  unfold resolveValue. rewrite Ha. cbn [resolveLoop]. rewrite Hb, Hloop.
  destruct val as [[s|f]|]; subst r; try contradiction.
  reflexivity.
Qed.

Lemma alias_resolves_like_target_witness :
  ScopedMap.get Samples.chainEnv (lit "A") = Some (Str (lit "B"))
  /\ ScopedMap.has Samples.chainEnv (lit "B") = true
  /\ resolveValue 1 (lit "B") Samples.chainEnv = Ok (lit "hello")
  /\ lit "hello" <> lit "B"
  /\ resolveValue 2 (lit "A") Samples.chainEnv = Ok (lit "hello").
Proof.
  repeat (split; [evaluated|]).
  apply (alias_resolves_like_target 1 (lit "A") (lit "B") (lit "hello")
           Samples.chainEnv); evaluated.
Defined.
